(** * FormatReader: the parse session of the MediaToolbox format-reader plug-in

    A verification model of
    [Source/WebKit/Shared/mac/MediaFormatReader/FormatReader.{h,cpp}].

    Conventions of the embedding.

    - The member functions of [FormatReader] read and write the parse state
      while holding [m_parseTracksLock] (the one exception is the branch of
      [parseByteSource] taken when no parser could be created, which runs on
      the main thread like every other writer), so each one is a single
      atomic transformer of the record [FormatReader].  Interleavings of the
      coordination (main) thread and of caller threads are sequences of such
      transformers.
    - [ASSERT(...)] is modelled as it behaves in an assertion-enabled build:
      a violated assertion ends the call with [AssertFails].
    - [m_parseTracksCondition.wait(lock, pred)] leaves the caller parked
      while [pred] is false; a call made in such a state is [Waits].  A query
      is a function of the state in which it gets past the wait; every state
      with a status is taken as such a point, which covers the wake-ups that
      [notifyAll] causes.
    - Results of the platform that the code tests before use
      ([SourceBufferParser::create], [TrackReader::create],
      [CMTimeCopyAsDictionary]) are inputs of the model. *)

From stdpp Require Import base option list strings numbers.

Set Default Proof Using "Type".
Open Scope N_scope.
Open Scope nat_scope.

(** ** Threads *)

Inductive Thread : Type :=
| MainThread
| OtherThread (n : nat).

Definition isMainThread (t : Thread) : bool :=
  match t with
  | MainThread => true
  | OtherThread _ => false
  end.

(** ** Outcome of a call *)

Inductive Run (A : Type) : Type :=
| Ret (a : A)      (* the call returns [a] *)
| AssertFails      (* an ASSERT in the body is violated *)
| Waits.           (* the caller stays parked on [m_parseTracksCondition] *)

Arguments Ret {A} a.
Arguments AssertFails {A}.
Arguments Waits {A}.

#[global] Instance Run_ret : MRet Run := @Ret.

#[global] Instance Run_bind : MBind Run := λ A B f m,
  match m with
  | Ret a => f a
  | AssertFails => AssertFails
  | Waits => Waits
  end.

Definition ASSERT (condition : bool) : Run unit :=
  if condition then Ret () else AssertFails.

(** ** Platform types *)

(** [OSStatus] values the reader produces.  They are distinct integer
    constants of the platform headers, [noErr] being zero; the code only
    stores them and compares them with [noErr]. *)
Inductive OSStatus : Type :=
| noErr
| kMTPluginFormatReaderError_AllocationFailure
| kMTPluginFormatReaderError_ParsingFailure
| kCMBaseObjectError_ValueNotAvailable.

#[global] Instance OSStatus_eq_dec : EqDecision OSStatus.
Proof. solve_decision. Defined.

(** [WTF::MediaTime], reduced to what the reader uses: the invalid time that
    [MediaTime::invalidTime()] returns, and times [timeValue / timeScale]. *)
Inductive MediaTime : Type :=
| invalidTime
| validTime (timeValue : Z) (timeScale : positive).

#[global] Instance MediaTime_eq_dec : EqDecision MediaTime.
Proof. solve_decision. Defined.

Definition isInvalid (time : MediaTime) : bool :=
  match time with
  | invalidTime => true
  | validTime _ _ => false
  end.

(** The default-constructed [MediaTime()]: zero at the default time scale. *)
Definition zeroTime : MediaTime := validTime 0 10000000.

(** Opaque handles. *)
Definition ByteSource : Type := N.
Definition MediaSample : Type := N.

(** An allocator, seen through the answers it gives to the successive
    allocation requests made of it; once the list is used up every further
    request is granted. *)
Definition Allocator : Type := list bool.

Definition allocate (a : Allocator) : bool * Allocator :=
  match a with
  | [] => (true, [])
  | granted :: rest => (granted, rest)
  end.

(** [CMTimeCopyAsDictionary(PAL::toCMTime(time), allocator)]: the dictionary
    form of a time, or null when the allocator refuses the request. *)
Inductive CFDictionary : Type :=
| TimeDictionary (time : MediaTime).

Definition CMTimeCopyAsDictionary (time : MediaTime) (allocator : Allocator)
  : option CFDictionary :=
  if (allocate allocator).1 then Some (TimeDictionary time) else None.

(** Property keys are strings compared with [CFEqual]. *)
Definition CFString : Type := string.

Definition CFEqual (a b : CFString) : bool := bool_decide (a = b).

Definition kMTPluginFormatReaderProperty_Duration : CFString := "Duration".

(** ** The initialization segment delivered by the parser *)

Record TrackInformation : Type := {
  description : string;   (* codec description *)
  track : N               (* the track private object, through its id *)
}.

Record InitializationSegment : Type := {
  duration : MediaTime;
  videoTracks : list TrackInformation;
  audioTracks : list TrackInformation;
  textTracks : list TrackInformation
}.

(** The value-initialized segment [{ }] passed on a parse error. *)
Definition emptySegment : InitializationSegment :=
  {| duration := zeroTime; videoTracks := []; audioTracks := []; textTracks := [] |}.

(** ** TrackReader *)

Inductive TrackKind : Type := VideoTrack | AudioTrack | TextTrack.

#[global] Instance TrackKind_eq_dec : EqDecision TrackKind.
Proof. solve_decision. Defined.

Module TrackReader.

(** Modelled from the spec: the class [TrackReader] ([TrackReader.h] and
    [TrackReader.cpp] lie outside the two files embedded here).  A track channel
    has a track id, a kind, an enabled flag that is false by default, an
    append-only sequence of samples, each kept with the byte source it came
    from, and a mark that no more samples will arrive. *)
Record t : Type := {
  trackID : N;
  mediaType : TrackKind;
  enabled : bool;
  samples : list (MediaSample * option ByteSource);
  finished : bool
}.

(** Modelled from the spec: a channel as it is right after its creation
    from a track descriptor: disabled, without samples, not finished. *)
Definition make (kind : TrackKind) (info : TrackInformation) : t :=
  {| trackID := track info; mediaType := kind; enabled := false;
     samples := []; finished := false |}.

(** Modelled from the spec: [TrackReader::create] builds a disabled, empty
    channel from a track descriptor and returns nothing when the allocation
    fails. *)
Definition create (a : Allocator) (kind : TrackKind) (info : TrackInformation)
  : option t * Allocator :=
  let '(granted, rest) := allocate a in
  (if granted then Some (make kind info) else None, rest).

(** Modelled from the spec: [TrackReader::setEnabled] is a pure toggle of
    the flag. *)
Definition setEnabled (value : bool) (r : t) : t :=
  {| trackID := trackID r; mediaType := mediaType r; enabled := value;
     samples := samples r; finished := finished r |}.

(** Modelled from the spec: [TrackReader::addSample] appends the sample,
    with the byte source, after the samples already received. *)
Definition addSample (sample : MediaSample) (byteSource : option ByteSource) (r : t) : t :=
  {| trackID := trackID r; mediaType := mediaType r; enabled := enabled r;
     samples := samples r ++ [(sample, byteSource)]; finished := finished r |}.

(** Modelled from the spec: [TrackReader::finishParsing] marks the channel
    as receiving no more samples. *)
Definition finishParsing (r : t) : t :=
  {| trackID := trackID r; mediaType := mediaType r; enabled := enabled r;
     samples := samples r; finished := true |}.

End TrackReader.

(** ** FormatReader *)

Record FormatReader : Type := {
  m_byteSource : option ByteSource;          (* RetainPtr, null at first *)
  m_duration : MediaTime;
  m_parseTracksStatus : option OSStatus;     (* Optional<OSStatus> *)
  m_trackReaders : list TrackReader.t        (* Vector<Ref<TrackReader>> *)
}.

(** [FormatReader::FormatReader]. *)
Definition create : FormatReader :=
  {| m_byteSource := None; m_duration := invalidTime;
     m_parseTracksStatus := None; m_trackReaders := [] |}.

(** [FormatReader::parseByteSource].  [parserCreated] tells whether
    [SourceBufferParser::create] returned a parser.  The callbacks registered
    with the parser and the job dispatched to the reader queue are not part of
    the reader's state; what they do to the reader later is [ParserCallback]
    below. *)
Definition parseByteSource (t : Thread) (parserCreated : bool)
    (byteSource : ByteSource) (r : FormatReader) : Run FormatReader :=
  ASSERT (isMainThread t);;
  if negb parserCreated then
    Ret {| m_byteSource := m_byteSource r; m_duration := m_duration r;
           m_parseTracksStatus := Some kMTPluginFormatReaderError_AllocationFailure;
           m_trackReaders := m_trackReaders r |}
  else
    Ret {| m_byteSource := Some byteSource; m_duration := invalidTime;
           m_parseTracksStatus := None; m_trackReaders := [] |}.

(** The body shared by the three loops of [didParseTracks]: create a reader
    and append it when one was created. *)
Definition createAndAppend (kind : TrackKind) (info : TrackInformation)
    (state : list TrackReader.t * Allocator) : list TrackReader.t * Allocator :=
  match TrackReader.create state.2 kind info with
  | (Some trackReader, rest) => (state.1 ++ [trackReader], rest)
  | (None, rest) => (state.1, rest)
  end.

(** [m_trackReaders[index]->setEnabled(true)]; the index is always within
    bounds where the code uses it, since it follows a test of the size. *)
Definition enableAt (index : nat) (readers : list TrackReader.t) : list TrackReader.t :=
  alter (TrackReader.setEnabled true) index readers.

Definition videoLoopBody (state : list TrackReader.t * Allocator)
    (videoTrack : TrackInformation) : list TrackReader.t * Allocator :=
  let appended := createAndAppend VideoTrack videoTrack state in
  (if (length appended.1 =? 1)%nat then enableAt 0 appended.1 else appended.1,
   appended.2).

Definition audioLoopBody (videoCount : nat) (state : list TrackReader.t * Allocator)
    (audioTrack : TrackInformation) : list TrackReader.t * Allocator :=
  let appended := createAndAppend AudioTrack audioTrack state in
  (if (length appended.1 =? videoCount + 1)%nat
   then enableAt videoCount appended.1 else appended.1,
   appended.2).

Definition textLoopBody (state : list TrackReader.t * Allocator)
    (textTrack : TrackInformation) : list TrackReader.t * Allocator :=
  createAndAppend TextTrack textTrack state.

(** The three range-for loops of [didParseTracks], run on the readers present
    (none, by the assertion) with the allocator [a]. *)
Definition appendTrackReaders (a : Allocator) (segment : InitializationSegment)
    (readers : list TrackReader.t) : list TrackReader.t :=
  let afterVideo := foldl videoLoopBody (readers, a) (videoTracks segment) in
  let afterAudio :=
    foldl (audioLoopBody (length (videoTracks segment))) afterVideo (audioTracks segment) in
  (foldl textLoopBody afterAudio (textTracks segment)).1.

(** [FormatReader::didParseTracks].  The final [notifyAll] changes no field;
    the callers it wakes are those for which the queries below return. *)
Definition didParseTracks (t : Thread) (a : Allocator)
    (segment : InitializationSegment) (errorCode : N) (r : FormatReader)
  : Run FormatReader :=
  ASSERT (isMainThread t);;
  ASSERT (bool_decide (m_parseTracksStatus r = None));;
  ASSERT (isInvalid (m_duration r));;
  ASSERT (bool_decide (m_trackReaders r = []));;
  Ret {| m_byteSource := m_byteSource r;
         m_duration := duration segment;
         m_parseTracksStatus :=
           Some (if (errorCode =? 0)%N then noErr
                 else kMTPluginFormatReaderError_ParsingFailure);
         m_trackReaders := appendTrackReaders a segment (m_trackReaders r) |}.

(** [FormatReader::didProvideMediaData]. *)
Definition didProvideMediaData (t : Thread) (mediaSample : MediaSample)
    (trackID : N) (r : FormatReader) : Run FormatReader :=
  ASSERT (isMainThread t);;
  match list_find (λ reader, TrackReader.trackID reader = trackID) (m_trackReaders r) with
  | Some (trackIndex, _) =>
      Ret {| m_byteSource := m_byteSource r; m_duration := m_duration r;
             m_parseTracksStatus := m_parseTracksStatus r;
             m_trackReaders :=
               alter (TrackReader.addSample mediaSample (m_byteSource r))
                     trackIndex (m_trackReaders r) |}
  | None => Ret r
  end.

(** [FormatReader::finishParsing]; the parser, whose callbacks it clears, is
    not part of the reader's state. *)
Definition finishParsing (t : Thread) (r : FormatReader) : Run FormatReader :=
  ASSERT (isMainThread t);;
  ASSERT (bool_decide (is_Some (m_parseTracksStatus r)));;
  Ret {| m_byteSource := m_byteSource r; m_duration := m_duration r;
         m_parseTracksStatus := m_parseTracksStatus r;
         m_trackReaders := TrackReader.finishParsing <$> m_trackReaders r |}.

(** [FormatReader::copyProperty]: the status and the value stored through
    [valueCopy], if any. *)
Definition copyProperty (key : CFString) (allocator : Allocator) (r : FormatReader)
  : Run (OSStatus * option CFDictionary) :=
  match m_parseTracksStatus r with
  | None => Waits
  | Some _ =>
      if CFEqual key kMTPluginFormatReaderProperty_Duration then
        match CMTimeCopyAsDictionary (m_duration r) allocator with
        | Some leakedDuration => Ret (noErr, Some leakedDuration)
        | None => Ret (kCMBaseObjectError_ValueNotAvailable, None)
        end
      else Ret (kCMBaseObjectError_ValueNotAvailable, None)
  end.

(** [FormatReader::copyTrackArray]: the status and the array stored through
    [trackArrayCopy], if any.  The array holds the readers themselves. *)
Definition copyTrackArray (t : Thread) (r : FormatReader)
  : Run (OSStatus * option (list TrackReader.t)) :=
  ASSERT (negb (isMainThread t));;
  match m_parseTracksStatus r with
  | None => Waits
  | Some status =>
      if bool_decide (status ≠ noErr) then Ret (status, None)
      else Ret (noErr, Some (m_trackReaders r))
  end.

(** ** Dispatch to the main thread *)

(** The reader together with the closures [callOnMainThread] has queued for
    it and that have not run yet; each one is [parseByteSource(byteSource)]. *)
Record World : Type := {
  reader : FormatReader;
  mainThreadQueue : list ByteSource
}.

Definition callOnMainThread (byteSource : ByteSource) (w : World) : World :=
  {| reader := reader w; mainThreadQueue := mainThreadQueue w ++ [byteSource] |}.

(** [FormatReader::startOnMainThread]. *)
Definition startOnMainThread (t : Thread) (byteSource : ByteSource) (w : World)
  : Run World :=
  ASSERT (negb (isMainThread t));;
  Ret (callOnMainThread byteSource w).

(** The main thread runs the closure at the head of its queue. *)
Definition runMainThreadTask (parserCreated : bool) (w : World) : Run World :=
  match mainThreadQueue w with
  | [] => Ret w
  | byteSource :: rest =>
      r ← parseByteSource MainThread parserCreated byteSource (reader w);
      Ret {| reader := r; mainThreadQueue := rest |}
  end.

(** ** The callbacks registered by [parseByteSource] *)

(** What reaches the reader on the main thread during one parse: the three
    callbacks given to the parser, and the closure that the reader-queue job
    posts once [appendData] has returned.  The allocator of
    [DidParseInitializationData] is the reader's [allocator()] as it answers
    during that callback; the completion handler the callback then calls
    belongs to the parser. *)
Inductive ParserCallback : Type :=
| DidParseInitializationData (a : Allocator) (segment : InitializationSegment)
| DidEncounterErrorDuringParsing (errorCode : N)
| DidProvideMediaData (mediaSample : MediaSample) (trackID : N)
| AppendDataReturned.

Definition deliver (r : FormatReader) (callback : ParserCallback) : Run FormatReader :=
  match callback with
  | DidParseInitializationData a segment => didParseTracks MainThread a segment 0 r
  | DidEncounterErrorDuringParsing errorCode =>
      didParseTracks MainThread [] emptySegment errorCode r
  | DidProvideMediaData mediaSample trackID =>
      didProvideMediaData MainThread mediaSample trackID r
  | AppendDataReturned => finishParsing MainThread r
  end.

Fixpoint deliverAll (callbacks : list ParserCallback) (r : FormatReader)
  : Run FormatReader :=
  match callbacks with
  | [] => Ret r
  | callback :: later => deliver r callback ≫= deliverAll later
  end.

(** A callback that reports the outcome of the parse, i.e. one that runs
    [didParseTracks]. *)
Definition reportsOutcome (callback : ParserCallback) : bool :=
  match callback with
  | DidParseInitializationData _ _ | DidEncounterErrorDuringParsing _ => true
  | DidProvideMediaData _ _ | AppendDataReturned => false
  end.

(** One parse generation: [parseByteSource] with a parser, followed by the
    callbacks of that parse. *)
Definition generation (byteSource : ByteSource) (callbacks : list ParserCallback)
    (r : FormatReader) : Run FormatReader :=
  parseByteSource MainThread true byteSource r ≫= deliverAll callbacks.

(** What identifies a channel in the track list, apart from the samples it
    has gathered so far and its finished mark. *)
Definition channel (r : TrackReader.t) : N * TrackKind * bool :=
  (TrackReader.trackID r, TrackReader.mediaType r, TrackReader.enabled r).

Definition channels (readers : list TrackReader.t) : list (N * TrackKind * bool) :=
  channel <$> readers.

(** The descriptor a reader was created from. *)
Definition descriptor (r : TrackReader.t) : TrackKind * N :=
  (TrackReader.mediaType r, TrackReader.trackID r).

(** The arguments with which a callback runs [didParseTracks], if it does. *)
Definition outcomeReport (callback : ParserCallback)
  : option (Allocator * InitializationSegment * N) :=
  match callback with
  | DidParseInitializationData a segment => Some (a, segment, 0%N)
  | DidEncounterErrorDuringParsing errorCode => Some ([], emptySegment, errorCode)
  | DidProvideMediaData _ _ | AppendDataReturned => None
  end.

(** The descriptors of a segment in the order of its three lists. *)
Definition descriptors (segment : InitializationSegment) : list (TrackKind * N) :=
  ((λ info, (VideoTrack, track info)) <$> videoTracks segment)
  ++ ((λ info, (AudioTrack, track info)) <$> audioTracks segment)
  ++ ((λ info, (TextTrack, track info)) <$> textTracks segment).

(** The elements of [l] whose allocation request, made in order of [a], is
    granted. *)
Fixpoint granted {A : Type} (a : Allocator) (l : list A) : list A :=
  match l with
  | [] => []
  | x :: rest =>
      if (allocate a).1 then x :: granted (allocate a).2 rest
      else granted (allocate a).2 rest
  end.

(** An allocator that grants every request. *)
Definition reliable (a : Allocator) : Prop := Forall (λ answer, answer = true) a.

(** What holds of the reader after [parseByteSource] (with a parser) and the
    callbacks [callbacks]: while no callback has reported an outcome, nothing
    is populated; afterwards exactly one callback has reported, and status,
    duration and channels are the ones that this one report produced from
    the empty reader. *)
Definition GenerationInvariant (byteSource : ByteSource)
    (callbacks : list ParserCallback) (r : FormatReader) : Prop :=
  m_byteSource r = Some byteSource ∧
  match m_parseTracksStatus r with
  | None =>
      omap outcomeReport callbacks = [] ∧
      m_duration r = invalidTime ∧ m_trackReaders r = []
  | Some status =>
      ∃ a segment errorCode,
        omap outcomeReport callbacks = [(a, segment, errorCode)] ∧
        status = (if (errorCode =? 0)%N then noErr
                  else kMTPluginFormatReaderError_ParsingFailure) ∧
        m_duration r = duration segment ∧
        channel <$> m_trackReaders r = channel <$> appendTrackReaders a segment []
  end.

(** ** A worked scenario *)

(** A container with one video track (id 1) and one audio track (id 2),
    lasting 12.5 s. *)
Definition scenarioSegment : InitializationSegment :=
  {| duration := validTime 125 10;
     videoTracks := [ {| description := "vp9"; track := 1%N |} ];
     audioTracks := [ {| description := "opus"; track := 2%N |} ];
     textTracks := [] |}.

(** The reader once byte source 7 has been started and the parser has
    delivered [scenarioSegment], every reader having been created. *)
Definition scenarioParsed : FormatReader :=
  {| m_byteSource := Some 7%N;
     m_duration := validTime 125 10;
     m_parseTracksStatus := Some noErr;
     m_trackReaders :=
       [ TrackReader.setEnabled true (TrackReader.make VideoTrack {| description := "vp9"; track := 1%N |});
         TrackReader.setEnabled true (TrackReader.make AudioTrack {| description := "opus"; track := 2%N |}) ] |}.

(** The reader once byte source 7 has been started and the parser has
    reported error 5 without delivering a segment. *)
Definition scenarioFailed : FormatReader :=
  {| m_byteSource := Some 7%N;
     m_duration := zeroTime;
     m_parseTracksStatus := Some kMTPluginFormatReaderError_ParsingFailure;
     m_trackReaders := [] |}.

(** ** Everything that happens to a reader *)

(** The main thread either runs [parseByteSource] (the closure queued by
    [startOnMainThread]) or one of the callbacks of a parser. *)
Inductive Event : Type :=
| StartParse (parserCreated : bool) (byteSource : ByteSource)
| Callback (callback : ParserCallback).

Definition handle (r : FormatReader) (event : Event) : Run FormatReader :=
  match event with
  | StartParse parserCreated byteSource =>
      parseByteSource MainThread parserCreated byteSource r
  | Callback callback => deliver r callback
  end.

Fixpoint handleAll (events : list Event) (r : FormatReader) : Run FormatReader :=
  match events with
  | [] => Ret r
  | event :: later => handle r event ≫= handleAll later
  end.

(** The states a freshly constructed reader can get into.  Every sequence of
    events counts, also those that no parser produces (a callback before the
    first start, say), so what holds of all of these holds of the states of
    the running plug-in. *)
Definition reachable (r : FormatReader) : Prop :=
  ∃ events, handleAll events create = Ret r.

(** The media-data callbacks for a sequence of samples, each with the track
    id it is addressed to. *)
Definition mediaData (deliveries : list (MediaSample * N)) : list ParserCallback :=
  (λ delivery, DidProvideMediaData delivery.1 delivery.2) <$> deliveries.

(** The readers of a track list that are enabled are exactly those that
    [shouldBeEnabled] names by index and kind. *)
Definition EnabledExactly (shouldBeEnabled : nat → TrackKind → Prop)
    (readers : list TrackReader.t) : Prop :=
  ∀ i reader, readers !! i = Some reader →
    (TrackReader.enabled reader = true ↔ shouldBeEnabled i (TrackReader.mediaType reader)).

(** The enabling rule of [didParseTracks] for a segment with [videoCount]
    video tracks: the reader at index 0 if it is a video reader, and the
    reader at index [videoCount] if it is an audio reader. *)
Definition enablingRule (videoCount : nat) (i : nat) (kind : TrackKind) : Prop :=
  (i = 0 ∧ kind = VideoTrack) ∨ (i = videoCount ∧ kind = AudioTrack).

(** What [handle] keeps true of a reader, whatever the events. *)
Record Consistent (r : FormatReader) : Prop := {
  unset_is_clean :
    m_parseTracksStatus r = None →
    m_duration r = invalidTime ∧ m_trackReaders r = [];
  status_is_known :
    m_parseTracksStatus r ≠ Some kCMBaseObjectError_ValueNotAvailable;
  failure_has_no_tracks :
    m_parseTracksStatus r = Some kMTPluginFormatReaderError_ParsingFailure →
    m_duration r = duration emptySegment ∧ m_trackReaders r = [];
  samples_from_byteSource :
    ∀ reader entry, reader ∈ m_trackReaders r →
      entry ∈ TrackReader.samples reader → entry.2 = m_byteSource r;
  enabled_by_rule :
    ∃ videoCount, EnabledExactly (enablingRule videoCount) (m_trackReaders r)
}.

(** The reader right after byte source 7 has been started with a parser. *)
Definition scenarioStarted : FormatReader :=
  {| m_byteSource := Some 7%N; m_duration := invalidTime;
     m_parseTracksStatus := None; m_trackReaders := [] |}.

(** A run of media-data callbacks: three samples for track 1, two for
    track 2 and one for a track 3 that does not exist, interleaved. *)
Definition scenarioDeliveries : list (MediaSample * N) :=
  [(100%N, 1%N); (101%N, 1%N); (200%N, 2%N); (900%N, 3%N); (201%N, 2%N); (102%N, 1%N)].

(** ** Proof automation *)

(** Closes an equivalence whose left side is a call that failed an assertion
    and whose right side asks for the asserted condition. *)
Ltac failed_assertion :=
  split; [done | intros; destruct_and?; simplify_eq/=; done].

(** * Basic facts *)

Section RunFacts.
Context {A B : Type}.

Lemma ASSERT_bind (condition : bool) (k : Run A) :
  (ASSERT condition;; k) = if condition then k else AssertFails.
Proof. by destruct condition. Qed.

Lemma bind_Ret_inv (m : Run A) (f : A → Run B) (b : B) :
  m ≫= f = Ret b → ∃ a, m = Ret a ∧ f a = Ret b.
Proof. destruct m; simpl; intros H; try discriminate. eauto. Qed.

End RunFacts.

Lemma deliverAll_app (xs ys : list ParserCallback) (r : FormatReader) :
  deliverAll (xs ++ ys) r = deliverAll xs r ≫= deliverAll ys.
Proof.
  revert r. induction xs as [|x xs IH]; intros r; simpl; [done|].
  destruct (deliver r x); simpl; auto.
Qed.

Lemma allocate_reliable (a : Allocator) :
  reliable a → (allocate a).1 = true ∧ reliable (allocate a).2.
Proof.
  unfold reliable. destruct a as [|answer rest]; simpl; [by split|].
  intros H. by inversion H.
Qed.

Lemma granted_reliable {A : Type} (a : Allocator) (l : list A) :
  reliable a → granted a l = l.
Proof.
  revert a. induction l as [|x l IH]; intros a Ha; simpl; [done|].
  destruct (allocate_reliable a Ha) as [-> Hrest]. by rewrite IH.
Qed.

Lemma fmap_alter_invariant {A B : Type} (f : A → B) (g : A → A) (l : list A) (i : nat) :
  (∀ x, f (g x) = f x) → f <$> alter g i l = f <$> l.
Proof.
  intros Hfg. rewrite (list_fmap_alter f g id).
  - by apply list_alter_id.
  - apply Forall_forall. intros x _. apply Hfg.
Qed.

(** ** What each operation does to the four fields *)

Lemma parseByteSource_started (byteSource : ByteSource) (r : FormatReader) :
  parseByteSource MainThread true byteSource r =
    Ret {| m_byteSource := Some byteSource; m_duration := invalidTime;
           m_parseTracksStatus := None; m_trackReaders := [] |}.
Proof. reflexivity. Qed.

Lemma didParseTracks_Ret (t : Thread) (a : Allocator) (segment : InitializationSegment)
    (errorCode : N) (r r' : FormatReader) :
  didParseTracks t a segment errorCode r = Ret r' ↔
    isMainThread t = true ∧ m_parseTracksStatus r = None ∧
    m_duration r = invalidTime ∧ m_trackReaders r = [] ∧
    r' = {| m_byteSource := m_byteSource r;
            m_duration := duration segment;
            m_parseTracksStatus :=
              Some (if (errorCode =? 0)%N then noErr
                    else kMTPluginFormatReaderError_ParsingFailure);
            m_trackReaders := appendTrackReaders a segment [] |}.
Proof.
  unfold didParseTracks. rewrite !ASSERT_bind.
  destruct (isMainThread t); [|failed_assertion].
  case_bool_decide as Hstatus; [|failed_assertion].
  destruct (m_duration r) eqn:Hduration; simpl; [|failed_assertion].
  case_bool_decide as Hreaders; [|failed_assertion].
  rewrite Hreaders. split.
  - by intros [= <-].
  - by intros (_ & _ & _ & _ & ->).
Qed.

Lemma didParseTracks_status_set (t : Thread) (a : Allocator)
    (segment : InitializationSegment) (errorCode : N) (r : FormatReader) :
  is_Some (m_parseTracksStatus r) →
  didParseTracks t a segment errorCode r = AssertFails.
Proof.
  intros [status Hstatus]. unfold didParseTracks. rewrite !ASSERT_bind.
  destruct (isMainThread t); [|done].
  rewrite bool_decide_eq_false_2; [done|]. by rewrite Hstatus.
Qed.

Lemma didProvideMediaData_frame (t : Thread) (mediaSample : MediaSample)
    (trackID : N) (r r' : FormatReader) :
  didProvideMediaData t mediaSample trackID r = Ret r' →
  m_byteSource r' = m_byteSource r ∧ m_duration r' = m_duration r ∧
  m_parseTracksStatus r' = m_parseTracksStatus r ∧
  channel <$> m_trackReaders r' = channel <$> m_trackReaders r.
Proof.
  unfold didProvideMediaData. rewrite ASSERT_bind.
  destruct (isMainThread t); [|done].
  destruct (list_find _ _) as [[trackIndex found]|]; intros [= <-]; simpl;
    [|done].
  split_and!; try done. by apply fmap_alter_invariant.
Qed.

Lemma finishParsing_Ret (t : Thread) (r r' : FormatReader) :
  finishParsing t r = Ret r' ↔
    isMainThread t = true ∧ is_Some (m_parseTracksStatus r) ∧
    r' = {| m_byteSource := m_byteSource r; m_duration := m_duration r;
            m_parseTracksStatus := m_parseTracksStatus r;
            m_trackReaders := TrackReader.finishParsing <$> m_trackReaders r |}.
Proof.
  unfold finishParsing. rewrite !ASSERT_bind.
  destruct (isMainThread t); [|failed_assertion].
  case_bool_decide; [|failed_assertion].
  split.
  - by intros [= <-].
  - by intros (_ & _ & ->).
Qed.

Lemma finishParsing_frame (t : Thread) (r r' : FormatReader) :
  finishParsing t r = Ret r' →
  m_byteSource r' = m_byteSource r ∧ m_duration r' = m_duration r ∧
  m_parseTracksStatus r' = m_parseTracksStatus r ∧
  channel <$> m_trackReaders r' = channel <$> m_trackReaders r.
Proof.
  intros (_ & _ & ->)%finishParsing_Ret. simpl. split_and!; try done.
  rewrite <-list_fmap_compose. by apply list_fmap_ext.
Qed.

(** Once the status is set, the callbacks that still run leave the status,
    the duration and the channels of the track list as they are. *)
Lemma deliver_concluded (r r' : FormatReader) (callback : ParserCallback) :
  is_Some (m_parseTracksStatus r) →
  deliver r callback = Ret r' →
  reportsOutcome callback = false ∧
  m_byteSource r' = m_byteSource r ∧ m_duration r' = m_duration r ∧
  m_parseTracksStatus r' = m_parseTracksStatus r ∧
  channel <$> m_trackReaders r' = channel <$> m_trackReaders r.
Proof.
  intros Hset. destruct callback; simpl.
  - by rewrite didParseTracks_status_set.
  - by rewrite didParseTracks_status_set.
  - intros H%didProvideMediaData_frame. by split.
  - intros H%finishParsing_frame. by split.
Qed.

Lemma deliverAll_concluded (callbacks : list ParserCallback) (r r' : FormatReader) :
  is_Some (m_parseTracksStatus r) →
  deliverAll callbacks r = Ret r' →
  Forall (λ callback, reportsOutcome callback = false) callbacks ∧
  m_byteSource r' = m_byteSource r ∧ m_duration r' = m_duration r ∧
  m_parseTracksStatus r' = m_parseTracksStatus r ∧
  channel <$> m_trackReaders r' = channel <$> m_trackReaders r.
Proof.
  revert r. induction callbacks as [|callback later IH]; intros r Hset; simpl.
  - intros [= <-]. by split.
  - intros (r1 & Hfirst & Hlater)%bind_Ret_inv.
    destruct (deliver_concluded _ _ _ Hset Hfirst) as (Hcb & Hbs & Hd & Hs & Hc).
    destruct (IH r1) as (Hall & Hbs' & Hd' & Hs' & Hc'); [by rewrite Hs|done|].
    split_and!; [by constructor|congruence..].
Qed.

(** ** One parse generation *)

Lemma outcomeReport_None (callback : ParserCallback) :
  reportsOutcome callback = false → outcomeReport callback = None.
Proof. by destruct callback. Qed.

Lemma deliver_report (r : FormatReader) (callback : ParserCallback)
    (a : Allocator) (segment : InitializationSegment) (errorCode : N) :
  outcomeReport callback = Some (a, segment, errorCode) →
  deliver r callback = didParseTracks MainThread a segment errorCode r.
Proof. destruct callback; simpl; by intros [= <- <- <-]. Qed.

Lemma GenerationInvariant_step (byteSource : ByteSource)
    (callbacks : list ParserCallback) (callback : ParserCallback)
    (r r' : FormatReader) :
  GenerationInvariant byteSource callbacks r →
  deliver r callback = Ret r' →
  GenerationInvariant byteSource (callbacks ++ [callback]) r'.
Proof.
  unfold GenerationInvariant. intros [Hsource Hinv] Hstep.
  rewrite omap_app. simpl.
  destruct (m_parseTracksStatus r) as [status|] eqn:Hstatus.
  - destruct (deliver_concluded r r' callback) as (Hcb & Hbs & Hd & Hs & Hc);
      [by rewrite Hstatus|done|].
    rewrite Hs, Hstatus, Hbs, Hd, Hc, (outcomeReport_None _ Hcb), app_nil_r.
    by split.
  - destruct Hinv as (Hnone & Hduration & Hreaders).
    destruct (outcomeReport callback) as [[[a segment] errorCode]|] eqn:Hreport.
    + rewrite (deliver_report _ _ _ _ _ Hreport) in Hstep.
      apply didParseTracks_Ret in Hstep as (_ & _ & _ & _ & ->). simpl.
      split; [done|]. exists a, segment, errorCode. by rewrite Hnone.
    + destruct callback; try discriminate; simpl in Hstep.
      * apply didProvideMediaData_frame in Hstep as (Hbs & Hd & Hs & Hc).
        rewrite Hs, Hstatus, Hbs, Hd, Hnone. split; [done|].
        split_and!; [done..|]. rewrite Hreaders in Hc.
        by apply fmap_nil_inv in Hc.
      * apply finishParsing_Ret in Hstep as (_ & [status Habsurd] & _).
        congruence.
Qed.

Lemma generation_invariant (byteSource : ByteSource)
    (callbacks : list ParserCallback) (r0 r : FormatReader) :
  generation byteSource callbacks r0 = Ret r →
  GenerationInvariant byteSource callbacks r.
Proof.
  unfold generation. rewrite parseByteSource_started. simpl.
  revert r. induction callbacks as [|callback callbacks IH] using rev_ind;
    intros r.
  - intros [= <-]. by repeat split.
  - rewrite deliverAll_app.
    intros (r1 & Hbefore & Hlast)%bind_Ret_inv. simpl in Hlast.
    apply bind_Ret_inv in Hlast as (r2 & Hlast & [= ->]).
    eauto using GenerationInvariant_step.
Qed.

(** In a generation that ran a given reporting callback, that callback is
    the one the state comes from. *)
Lemma generation_report (byteSource : ByteSource)
    (callbacks : list ParserCallback) (r0 r : FormatReader)
    (callback : ParserCallback) (a : Allocator)
    (segment : InitializationSegment) (errorCode : N) :
  generation byteSource callbacks r0 = Ret r →
  callback ∈ callbacks →
  outcomeReport callback = Some (a, segment, errorCode) →
  m_parseTracksStatus r =
    Some (if (errorCode =? 0)%N then noErr
          else kMTPluginFormatReaderError_ParsingFailure) ∧
  m_duration r = duration segment ∧
  channel <$> m_trackReaders r = channel <$> appendTrackReaders a segment [].
Proof.
  intros [_ Hinv]%generation_invariant Hin Hreport.
  assert ((a, segment, errorCode) ∈ omap outcomeReport callbacks) as Hfound.
  { apply list_elem_of_omap. eauto. }
  destruct (m_parseTracksStatus r) as [status|].
  - destruct Hinv as (a' & segment' & errorCode' & Hone & -> & Hd & Hc).
    rewrite Hone in Hfound. apply list_elem_of_singleton in Hfound.
    by injection Hfound as -> -> ->.
  - destruct Hinv as (Hnone & _). rewrite Hnone in Hfound.
    by apply not_elem_of_nil in Hfound.
Qed.

(** ** The loops of [didParseTracks] *)

Lemma allocate_snd (a : Allocator) : (allocate a).2 = drop 1 a.
Proof. by destruct a. Qed.

Lemma reliable_drop (n : nat) (a : Allocator) : reliable a → reliable (drop n a).
Proof. apply Forall_drop. Qed.

Lemma granted_cons {A : Type} (a : Allocator) (x : A) (l : list A) :
  granted a (x :: l) = granted a [x] ++ granted (drop 1 a) l.
Proof. simpl. rewrite allocate_snd. by destruct (allocate a).1. Qed.

Lemma granted_app {A : Type} (a : Allocator) (l1 l2 : list A) :
  granted a (l1 ++ l2) = granted a l1 ++ granted (drop (length l1) a) l2.
Proof.
  revert a. induction l1 as [|x l1 IH]; intros a; [done|].
  simpl. rewrite IH, allocate_snd, drop_drop.
  by destruct (allocate a).1.
Qed.

Lemma createAndAppend_eq (kind : TrackKind) (info : TrackInformation)
    (readers : list TrackReader.t) (a : Allocator) :
  createAndAppend kind info (readers, a) =
    (readers ++ granted a [TrackReader.make kind info], drop 1 a).
Proof.
  unfold createAndAppend, TrackReader.create. simpl.
  rewrite <-allocate_snd. destruct (allocate a) as [[] rest]; simpl; [done|].
  by rewrite app_nil_r.
Qed.

Lemma descriptor_enableAt (index : nat) (readers : list TrackReader.t) :
  descriptor <$> enableAt index readers = descriptor <$> readers.
Proof. by apply fmap_alter_invariant. Qed.

Lemma descriptor_granted (a : Allocator) (kind : TrackKind) (info : TrackInformation) :
  descriptor <$> granted a [TrackReader.make kind info] = granted a [(kind, track info)].
Proof. simpl. by destruct (allocate a).1. Qed.

(** A loop whose body appends the reader created for the track, whatever it
    enables afterwards, adds the descriptors of the tracks whose creation is
    granted, in order. *)
Lemma loop_descriptors (kind : TrackKind)
    (body : list TrackReader.t * Allocator → TrackInformation →
            list TrackReader.t * Allocator) :
  (∀ readers a info,
     (body (readers, a) info).2 = drop 1 a ∧
     descriptor <$> (body (readers, a) info).1 =
       (descriptor <$> readers) ++ granted a [(kind, track info)]) →
  ∀ infos readers a,
    (foldl body (readers, a) infos).2 = drop (length infos) a ∧
    descriptor <$> (foldl body (readers, a) infos).1 =
      (descriptor <$> readers) ++ granted a ((λ info, (kind, track info)) <$> infos).
Proof.
  intros Hbody. induction infos as [|info infos IH]; intros readers a.
  - simpl. by rewrite app_nil_r.
  - simpl foldl. destruct (Hbody readers a info) as [Hrest Hdescr].
    destruct (body (readers, a) info) as [readers' a']. simpl in Hrest, Hdescr.
    destruct (IH readers' a') as [-> ->]. subst a'.
    rewrite Hdescr, drop_drop, fmap_cons, (granted_cons a), app_assoc. done.
Qed.

Lemma videoLoopBody_descriptors (readers : list TrackReader.t) (a : Allocator)
    (info : TrackInformation) :
  (videoLoopBody (readers, a) info).2 = drop 1 a ∧
  descriptor <$> (videoLoopBody (readers, a) info).1 =
    (descriptor <$> readers) ++ granted a [(VideoTrack, track info)].
Proof.
  unfold videoLoopBody. rewrite createAndAppend_eq. cbn [fst snd]. split; [done|].
  rewrite <-descriptor_granted, <-fmap_app.
  destruct (_ =? _)%nat; [apply descriptor_enableAt|done].
Qed.

Lemma audioLoopBody_descriptors (videoCount : nat) (readers : list TrackReader.t)
    (a : Allocator) (info : TrackInformation) :
  (audioLoopBody videoCount (readers, a) info).2 = drop 1 a ∧
  descriptor <$> (audioLoopBody videoCount (readers, a) info).1 =
    (descriptor <$> readers) ++ granted a [(AudioTrack, track info)].
Proof.
  unfold audioLoopBody. rewrite createAndAppend_eq. cbn [fst snd]. split; [done|].
  rewrite <-descriptor_granted, <-fmap_app.
  destruct (_ =? _)%nat; [apply descriptor_enableAt|done].
Qed.

Lemma textLoopBody_descriptors (readers : list TrackReader.t) (a : Allocator)
    (info : TrackInformation) :
  (textLoopBody (readers, a) info).2 = drop 1 a ∧
  descriptor <$> (textLoopBody (readers, a) info).1 =
    (descriptor <$> readers) ++ granted a [(TextTrack, track info)].
Proof.
  unfold textLoopBody. rewrite createAndAppend_eq. cbn [fst snd]. split; [done|].
  by rewrite <-descriptor_granted, <-fmap_app.
Qed.

(** The track list built by [didParseTracks] lists, in the order video, audio,
    text, the descriptors for which a reader could be created. *)
Lemma appendTrackReaders_descriptors (a : Allocator) (segment : InitializationSegment) :
  descriptor <$> appendTrackReaders a segment [] = granted a (descriptors segment).
Proof.
  unfold appendTrackReaders, descriptors.
  destruct (loop_descriptors VideoTrack videoLoopBody videoLoopBody_descriptors
              (videoTracks segment) [] a) as [Ha1 Hd1].
  destruct (foldl videoLoopBody _ _) as [readers1 a1]. simpl in Ha1, Hd1.
  destruct (loop_descriptors AudioTrack _
              (audioLoopBody_descriptors (length (videoTracks segment)))
              (audioTracks segment) readers1 a1) as [Ha2 Hd2].
  destruct (foldl (audioLoopBody _) _ _) as [readers2 a2]. simpl in Ha2, Hd2.
  destruct (loop_descriptors TextTrack textLoopBody textLoopBody_descriptors
              (textTracks segment) readers2 a2) as [_ Hd3].
  rewrite Hd3, Hd2, Hd1, Ha2, Ha1, drop_drop, !granted_app, !length_fmap.
  by rewrite <-app_assoc, ?drop_drop.
Qed.

(** *** When every reader is created *)

Lemma createAndAppend_reliable (kind : TrackKind) (info : TrackInformation)
    (readers : list TrackReader.t) (a : Allocator) :
  reliable a →
  createAndAppend kind info (readers, a) =
    (readers ++ [TrackReader.make kind info], drop 1 a).
Proof. intros Ha. by rewrite createAndAppend_eq, granted_reliable. Qed.

(** A loop whose body, on the sizes allowed by [guard], only appends. *)
Lemma loop_appends (kind : TrackKind) (guard : nat → Prop)
    (body : list TrackReader.t * Allocator → TrackInformation →
            list TrackReader.t * Allocator) :
  (∀ n, guard n → guard (S n)) →
  (∀ readers a info, reliable a → guard (length readers) →
     body (readers, a) info = (readers ++ [TrackReader.make kind info], drop 1 a)) →
  ∀ infos readers a, reliable a → guard (length readers) →
    foldl body (readers, a) infos =
      (readers ++ (TrackReader.make kind <$> infos), drop (length infos) a).
Proof.
  intros Hguard Hbody. induction infos as [|info infos IH]; intros readers a Ha Hg.
  - simpl. by rewrite app_nil_r.
  - simpl foldl. rewrite Hbody by done. rewrite IH.
    + by rewrite <-app_assoc, drop_drop.
    + by apply reliable_drop.
    + rewrite length_app. simpl. rewrite Nat.add_1_r. by apply Hguard.
Qed.

Lemma videoLoop_reliable (a : Allocator) (videos : list TrackInformation) :
  reliable a →
  foldl videoLoopBody ([], a) videos =
    (enableAt 0 (TrackReader.make VideoTrack <$> videos), drop (length videos) a).
Proof.
  intros Ha. destruct videos as [|first videos]; [done|].
  simpl foldl. unfold videoLoopBody at 2.
  rewrite createAndAppend_reliable by done. cbn [fst snd app length Nat.eqb].
  rewrite (loop_appends VideoTrack (λ n, 1 ≤ n)).
  - by rewrite drop_drop.
  - lia.
  - intros readers a' info Ha' Hlen. unfold videoLoopBody.
    rewrite createAndAppend_reliable by done. cbn [fst snd].
    rewrite length_app. simpl length.
    by destruct (Nat.eqb_spec (length readers + 1) 1) as [?|_]; [lia|].
  - by apply reliable_drop.
  - simpl. lia.
Qed.

Lemma audioLoop_reliable (a : Allocator) (readers : list TrackReader.t)
    (audios : list TrackInformation) :
  reliable a →
  foldl (audioLoopBody (length readers)) (readers, a) audios =
    (readers ++ enableAt 0 (TrackReader.make AudioTrack <$> audios),
     drop (length audios) a).
Proof.
  intros Ha. destruct audios as [|first audios].
  { simpl. by rewrite app_nil_r. }
  simpl foldl. unfold audioLoopBody at 2.
  rewrite createAndAppend_reliable by done. cbn [fst snd].
  rewrite length_app. simpl length. rewrite Nat.eqb_refl.
  unfold enableAt at 1.
  rewrite <-(Nat.add_0_r (length readers)) at 2. rewrite alter_app_r.
  rewrite (loop_appends AudioTrack (λ n, length readers + 1 ≤ n)).
  - by rewrite <-app_assoc, drop_drop.
  - lia.
  - intros readers' a' info Ha' Hlen. unfold audioLoopBody.
    rewrite createAndAppend_reliable by done. cbn [fst snd].
    rewrite length_app. simpl length.
    by destruct (Nat.eqb_spec (length readers' + 1) (length readers + 1)) as [?|_];
      [lia|].
  - by apply reliable_drop.
  - rewrite length_app. simpl. lia.
Qed.

Lemma textLoop_reliable (a : Allocator) (readers : list TrackReader.t)
    (texts : list TrackInformation) :
  reliable a →
  foldl textLoopBody (readers, a) texts =
    (readers ++ (TrackReader.make TextTrack <$> texts), drop (length texts) a).
Proof.
  intros Ha. apply (loop_appends TextTrack (λ _, True)); try done.
  intros readers' a' info Ha' _. by apply createAndAppend_reliable.
Qed.

(** The track list that [didParseTracks] builds when no creation fails. *)
Lemma appendTrackReaders_reliable (a : Allocator) (segment : InitializationSegment) :
  reliable a →
  appendTrackReaders a segment [] =
    enableAt 0 (TrackReader.make VideoTrack <$> videoTracks segment)
    ++ enableAt 0 (TrackReader.make AudioTrack <$> audioTracks segment)
    ++ (TrackReader.make TextTrack <$> textTracks segment).
Proof.
  intros Ha. unfold appendTrackReaders.
  rewrite videoLoop_reliable by done.
  replace (length (videoTracks segment))
    with (length (enableAt 0 (TrackReader.make VideoTrack <$> videoTracks segment)))
    at 1 by (unfold enableAt; by rewrite length_alter, length_fmap).
  rewrite audioLoop_reliable by (by apply reliable_drop).
  rewrite textLoop_reliable by (by do 2 apply reliable_drop).
  simpl. by rewrite <-app_assoc.
Qed.

(** *** Which readers of that list are enabled *)

Lemma make_lookup_disabled (kind : TrackKind) (infos : list TrackInformation)
    (j : nat) (reader : TrackReader.t) :
  (TrackReader.make kind <$> infos) !! j = Some reader →
  TrackReader.enabled reader = false.
Proof.
  rewrite list_lookup_fmap. destruct (infos !! j); simpl; [|done].
  by intros [= <-].
Qed.

Lemma enableAt_0_lookup (kind : TrackKind) (infos : list TrackInformation)
    (j : nat) (reader : TrackReader.t) :
  enableAt 0 (TrackReader.make kind <$> infos) !! j = Some reader →
  (TrackReader.enabled reader = true ↔ j = 0) ∧ j < length infos.
Proof.
  unfold enableAt. intros Hlookup. split.
  - destruct (decide (j = 0)) as [->|Hj].
    + rewrite list_lookup_alter_eq in Hlookup.
      destruct (_ !! 0); simpl in Hlookup; [|done].
      injection Hlookup as <-. done.
    + rewrite list_lookup_alter_ne in Hlookup by done.
      apply make_lookup_disabled in Hlookup. rewrite Hlookup. split; [done|lia].
  - apply lookup_lt_Some in Hlookup.
    by rewrite length_alter, length_fmap in Hlookup.
Qed.

Lemma nonempty_length {A : Type} (l : list A) : l ≠ [] ↔ 0 < length l.
Proof. destruct l; simpl; split; (done || lia). Qed.

(** In the list built when no creation fails, the enabled readers are the one
    at index 0 if there is a video track, and the one that follows the video
    tracks if there is an audio track. *)
Lemma expected_enabled (videos audios texts : list TrackInformation)
    (i : nat) (reader : TrackReader.t) :
  (enableAt 0 (TrackReader.make VideoTrack <$> videos)
   ++ enableAt 0 (TrackReader.make AudioTrack <$> audios)
   ++ (TrackReader.make TextTrack <$> texts)) !! i = Some reader →
  (TrackReader.enabled reader = true ↔
     (i = 0 ∧ videos ≠ []) ∨ (i = length videos ∧ audios ≠ [])).
Proof.
  rewrite !nonempty_length.
  assert (length (enableAt 0 (TrackReader.make VideoTrack <$> videos)) = length videos)
    as Hlv by (unfold enableAt; by rewrite length_alter, length_fmap).
  assert (length (enableAt 0 (TrackReader.make AudioTrack <$> audios)) = length audios)
    as Hla by (unfold enableAt; by rewrite length_alter, length_fmap).
  intros [Hvideo|[Hge [Haudio|[Hge' Htext]]%lookup_app_Some]]%lookup_app_Some.
  - apply enableAt_0_lookup in Hvideo as [-> Hlt]. lia.
  - apply enableAt_0_lookup in Haudio as [-> Hlt]. lia.
  - apply make_lookup_disabled in Htext. rewrite Htext. split; [done|lia].
Qed.

Lemma filter_enabled_make (kind : TrackKind) (infos : list TrackInformation) :
  filter (λ reader, TrackReader.enabled reader = true)
         (TrackReader.make kind <$> infos) = [].
Proof.
  induction infos as [|info infos IH]; [done|].
  rewrite fmap_cons, filter_cons_False; done.
Qed.

Lemma filter_enabled_enableAt_0 (kind : TrackKind) (infos : list TrackInformation) :
  length (filter (λ reader, TrackReader.enabled reader = true)
                 (enableAt 0 (TrackReader.make kind <$> infos))) =
    match infos with [] => 0 | _ :: _ => 1 end.
Proof.
  destruct infos as [|info infos]; [done|].
  unfold enableAt. simpl alter. rewrite filter_cons_True by done.
  simpl. f_equal. by rewrite filter_enabled_make.
Qed.

Lemma expected_enabled_count (videos audios texts : list TrackInformation) :
  length (filter (λ reader, TrackReader.enabled reader = true)
            (enableAt 0 (TrackReader.make VideoTrack <$> videos)
             ++ enableAt 0 (TrackReader.make AudioTrack <$> audios)
             ++ (TrackReader.make TextTrack <$> texts))) =
    match videos with [] => 0 | _ :: _ => 1 end
    + match audios with [] => 0 | _ :: _ => 1 end.
Proof.
  rewrite !list.filter_app, !length_app, !filter_enabled_enableAt_0, filter_enabled_make.
  simpl. lia.
Qed.

(** Lists with the same channels have the same enabled readers. *)
Lemma channel_eq_lookup (l l' : list TrackReader.t) (i : nat) (reader : TrackReader.t) :
  channel <$> l = channel <$> l' →
  l !! i = Some reader →
  ∃ reader', l' !! i = Some reader' ∧ channel reader' = channel reader.
Proof.
  intros Heq Hlookup.
  assert ((channel <$> l') !! i = Some (channel reader)) as H.
  { by rewrite <-Heq, list_lookup_fmap, Hlookup. }
  rewrite list_lookup_fmap in H. destruct (l' !! i) as [reader'|]; [|done].
  exists reader'. split; [done|]. unfold channel in *. simpl in H. congruence.
Qed.

Lemma channel_eq_enabled_count (l l' : list TrackReader.t) :
  channel <$> l = channel <$> l' →
  length (filter (λ reader, TrackReader.enabled reader = true) l) =
  length (filter (λ reader, TrackReader.enabled reader = true) l').
Proof.
  revert l'. induction l as [|x l IH]; intros [|x' l']; try done.
  rewrite !fmap_cons. intros [= Hid Hkind Henabled Hrest].
  rewrite !filter_cons, Henabled.
  destruct (decide (TrackReader.enabled x' = true)); simpl; auto.
Qed.

Lemma channel_eq_descriptor (l l' : list TrackReader.t) :
  channel <$> l = channel <$> l' → descriptor <$> l = descriptor <$> l'.
Proof.
  intros Heq.
  change descriptor with ((λ c : N * TrackKind * bool, (c.1.2, c.1.1)) ∘ channel).
  by rewrite !list_fmap_compose, Heq.
Qed.

(** * The worked scenario runs as defined *)

Example scenario_parsed :
  generation 7%N [DidParseInitializationData [] scenarioSegment] create = Ret scenarioParsed.
Proof. reflexivity. Qed.

Example scenario_failed :
  generation 7%N [DidEncounterErrorDuringParsing 5%N] create = Ret scenarioFailed.
Proof. reflexivity. Qed.

(** * The parse generation: outcome, duration and tracks *)

(** C1, as the code has it.  Take a parse generation started by a
    [parseByteSource] that obtained a parser, from any earlier state [r0], and
    followed by any callbacks that ran without failing an assertion.  As long
    as the status is unset no callback has reported an outcome, the duration
    is invalid and the track list is empty (so the start has reset both,
    whatever [r0] held).  Once the status is set, exactly one callback has
    reported an outcome, and status, duration and the channels of the track
    list are the ones which that one call of [didParseTracks] produced from
    the empty reader: nothing in them comes from [r0]. *)
Theorem generation_outcome_set_once (byteSource : ByteSource)
    (callbacks : list ParserCallback) (r0 r : FormatReader) :
  generation byteSource callbacks r0 = Ret r →
  match m_parseTracksStatus r with
  | None =>
      omap outcomeReport callbacks = [] ∧
      m_duration r = invalidTime ∧ m_trackReaders r = []
  | Some status =>
      ∃ a segment errorCode,
        omap outcomeReport callbacks = [(a, segment, errorCode)] ∧
        status = (if (errorCode =? 0)%N then noErr
                  else kMTPluginFormatReaderError_ParsingFailure) ∧
        m_duration r = duration segment ∧
        channel <$> m_trackReaders r = channel <$> appendTrackReaders a segment []
  end.
Proof.
  unfold generation. rewrite parseByteSource_started. simpl. intros Hrun.
  cut (GenerationInvariant byteSource callbacks r); [by intros [_ Hinv]|].
  revert r Hrun.
  induction callbacks as [|callback callbacks IH] using rev_ind; intros r.
  - (* right after the start: everything is reset *)
    intros [= <-]. by repeat split.
  - (* one more callback: it either reports the outcome of a generation that
       had none, or leaves a reported outcome alone *)
    rewrite deliverAll_app.
    intros (r1 & Hbefore & Hlast)%bind_Ret_inv. simpl in Hlast.
    apply bind_Ret_inv in Hlast as (r2 & Hlast & [= ->]).
    eauto using GenerationInvariant_step.
Qed.

Lemma generation_outcome_set_once_witness :
  generation 8%N [DidParseInitializationData [] scenarioSegment;
                  DidProvideMediaData 100%N 1%N; AppendDataReturned]
             scenarioFailed
    = Ret {| m_byteSource := Some 8%N;
             m_duration := validTime 125 10;
             m_parseTracksStatus := Some noErr;
             m_trackReaders :=
               [ {| TrackReader.trackID := 1; TrackReader.mediaType := VideoTrack;
                    TrackReader.enabled := true;
                    TrackReader.samples := [(100%N, Some 8%N)];
                    TrackReader.finished := true |};
                 {| TrackReader.trackID := 2; TrackReader.mediaType := AudioTrack;
                    TrackReader.enabled := true;
                    TrackReader.samples := [];
                    TrackReader.finished := true |} ] |}
  ∧ ∃ a segment errorCode,
      omap outcomeReport [DidParseInitializationData [] scenarioSegment;
                          DidProvideMediaData 100%N 1%N; AppendDataReturned]
        = [(a, segment, errorCode)] ∧
      noErr = (if (errorCode =? 0)%N then noErr
               else kMTPluginFormatReaderError_ParsingFailure) ∧
      validTime 125 10 = duration segment ∧
      [(1%N, VideoTrack, true); (2%N, AudioTrack, true)]
        = channel <$> appendTrackReaders a segment [].
Proof.
  split; [reflexivity|].
  exact (generation_outcome_set_once 8%N
           [DidParseInitializationData [] scenarioSegment;
            DidProvideMediaData 100%N 1%N; AppendDataReturned]
           scenarioFailed _ eq_refl).
Defined.

(** C1 as stated fails: when the second [parseByteSource] gets no parser it
    sets the status to the allocation failure and returns, leaving the duration
    and the track list of the first generation in place; [copyProperty] then
    hands out that earlier duration under the new status. *)
Lemma second_start_without_parser_keeps_previous_generation :
  (generation 7%N [DidParseInitializationData [] scenarioSegment] create
     ≫= parseByteSource MainThread false 8%N)
    = Ret {| m_byteSource := Some 7%N;
             m_duration := validTime 125 10;
             m_parseTracksStatus := Some kMTPluginFormatReaderError_AllocationFailure;
             m_trackReaders := m_trackReaders scenarioParsed |}
  ∧ ((generation 7%N [DidParseInitializationData [] scenarioSegment] create
        ≫= parseByteSource MainThread false 8%N)
       ≫= copyProperty kMTPluginFormatReaderProperty_Duration [])
    = Ret (noErr, Some (TimeDictionary (validTime 125 10))).
Proof. split; reflexivity. Qed.

(** * The track list returned by [copyTrackArray] *)

(** C2, as the code has it.  After a generation in which the parser delivered
    the initialization segment [segment], [copyTrackArray], called off the
    main thread, returns [noErr] and a track list that follows the video, then
    the audio, then the text descriptors of the segment, in their order,
    without those for which no reader could be created; when every reader is
    created it has exactly the descriptors of the segment. *)
Theorem copyTrackArray_lists_created_tracks (byteSource : ByteSource)
    (callbacks : list ParserCallback) (r0 r : FormatReader)
    (a : Allocator) (segment : InitializationSegment) (t : Thread) :
  isMainThread t = false →
  generation byteSource callbacks r0 = Ret r →
  DidParseInitializationData a segment ∈ callbacks →
  ∃ tracks,
    copyTrackArray t r = Ret (noErr, Some tracks) ∧
    descriptor <$> tracks = granted a (descriptors segment) ∧
    (reliable a → descriptor <$> tracks = descriptors segment).
Proof.
  intros Ht Hgen Hin.
  destruct (generation_report _ _ _ _ _ a segment 0%N Hgen Hin eq_refl)
    as (Hstatus & _ & Hchannels).
  exists (m_trackReaders r). split_and!.
  - unfold copyTrackArray. rewrite Ht, Hstatus. done.
  - rewrite (channel_eq_descriptor _ _ Hchannels).
    apply appendTrackReaders_descriptors.
  - intros Ha. rewrite (channel_eq_descriptor _ _ Hchannels),
      appendTrackReaders_descriptors. by apply granted_reliable.
Qed.

Lemma copyTrackArray_lists_created_tracks_witness :
  isMainThread (OtherThread 1) = false ∧
  generation 7%N [DidParseInitializationData [] scenarioSegment] create
    = Ret scenarioParsed ∧
  DidParseInitializationData [] scenarioSegment
    ∈ [DidParseInitializationData [] scenarioSegment] ∧
  ∃ tracks,
    copyTrackArray (OtherThread 1) scenarioParsed = Ret (noErr, Some tracks) ∧
    descriptor <$> tracks = granted [] (descriptors scenarioSegment) ∧
    (reliable [] → descriptor <$> tracks = descriptors scenarioSegment).
Proof.
  assert (DidParseInitializationData [] scenarioSegment
            ∈ [DidParseInitializationData [] scenarioSegment]) as Hin
    by (apply list_elem_of_here).
  split_and!; [reflexivity|reflexivity|exact Hin|].
  exact (copyTrackArray_lists_created_tracks 7%N
           [DidParseInitializationData [] scenarioSegment] create scenarioParsed
           [] scenarioSegment (OtherThread 1) eq_refl eq_refl Hin).
Defined.

(** C2 as stated fails: when [TrackReader::create] returns nothing for the
    video track, the parse still concludes with [noErr] and [copyTrackArray]
    returns one track where the segment declares two. *)
Lemma copyTrackArray_skips_track_without_reader :
  (generation 7%N [DidParseInitializationData [false] scenarioSegment] create
     ≫= copyTrackArray (OtherThread 1))
    = Ret (noErr,
           Some [TrackReader.make AudioTrack {| description := "opus"; track := 2%N |}])
  ∧ descriptors scenarioSegment = [(VideoTrack, 1%N); (AudioTrack, 2%N)].
Proof. split; reflexivity. Qed.

(** * The readers enabled by [didParseTracks] *)

(** C3, as the code has it.  After a generation in which the parser delivered
    the initialization segment [segment] and every reader was created, the
    track list has the descriptors of the segment, and a reader is enabled
    exactly when it is the first one of the list and the segment has a video
    track, or the one right after the video tracks and the segment has an
    audio track.  So the first video track and the first audio track are both
    enabled when both exist, no text track is enabled, and the number of
    enabled readers is one only when the segment has video tracks or audio
    tracks but not both. *)
Theorem first_video_and_first_audio_enabled (byteSource : ByteSource)
    (callbacks : list ParserCallback) (r0 r : FormatReader)
    (a : Allocator) (segment : InitializationSegment) :
  reliable a →
  generation byteSource callbacks r0 = Ret r →
  DidParseInitializationData a segment ∈ callbacks →
  descriptor <$> m_trackReaders r = descriptors segment ∧
  (∀ i reader, m_trackReaders r !! i = Some reader →
     (TrackReader.enabled reader = true ↔
        (i = 0 ∧ videoTracks segment ≠ []) ∨
        (i = length (videoTracks segment) ∧ audioTracks segment ≠ []))) ∧
  length (filter (λ reader, TrackReader.enabled reader = true) (m_trackReaders r)) =
    match videoTracks segment with [] => 0 | _ :: _ => 1 end
    + match audioTracks segment with [] => 0 | _ :: _ => 1 end.
Proof.
  intros Ha Hgen Hin.
  destruct (generation_report _ _ _ _ _ a segment 0%N Hgen Hin eq_refl)
    as (_ & _ & Hchannels).
  split_and!.
  - rewrite (channel_eq_descriptor _ _ Hchannels), appendTrackReaders_descriptors.
    by apply granted_reliable.
  - intros i reader Hlookup.
    destruct (channel_eq_lookup _ _ i reader Hchannels Hlookup)
      as (reader' & Hlookup' & Hsame).
    rewrite appendTrackReaders_reliable in Hlookup' by done.
    apply expected_enabled in Hlookup'.
    replace (TrackReader.enabled reader) with (TrackReader.enabled reader');
      [done|]. unfold channel in Hsame. congruence.
  - rewrite (channel_eq_enabled_count _ _ Hchannels),
      appendTrackReaders_reliable by done.
    apply expected_enabled_count.
Qed.

Lemma first_video_and_first_audio_enabled_witness :
  reliable [] ∧
  generation 7%N [DidParseInitializationData [] scenarioSegment] create
    = Ret scenarioParsed ∧
  DidParseInitializationData [] scenarioSegment
    ∈ [DidParseInitializationData [] scenarioSegment] ∧
  descriptor <$> m_trackReaders scenarioParsed = descriptors scenarioSegment ∧
  (∀ i reader, m_trackReaders scenarioParsed !! i = Some reader →
     (TrackReader.enabled reader = true ↔
        (i = 0 ∧ videoTracks scenarioSegment ≠ []) ∨
        (i = length (videoTracks scenarioSegment) ∧ audioTracks scenarioSegment ≠ []))) ∧
  length (filter (λ reader, TrackReader.enabled reader = true)
                 (m_trackReaders scenarioParsed)) =
    match videoTracks scenarioSegment with [] => 0 | _ :: _ => 1 end
    + match audioTracks scenarioSegment with [] => 0 | _ :: _ => 1 end.
Proof.
  assert (reliable []) as Ha by (apply Forall_nil_2).
  assert (DidParseInitializationData [] scenarioSegment
            ∈ [DidParseInitializationData [] scenarioSegment]) as Hin
    by (apply list_elem_of_here).
  split_and!; [exact Ha|reflexivity|exact Hin|..];
    apply (first_video_and_first_audio_enabled 7%N
             [DidParseInitializationData [] scenarioSegment] create scenarioParsed
             [] scenarioSegment Ha eq_refl Hin).
Defined.

(** C3 as stated fails: for a segment with one video and one audio track, both
    readers come out enabled, not the video one alone. *)
Lemma video_and_audio_both_enabled :
  ∃ r,
    generation 7%N [DidParseInitializationData [] scenarioSegment] create = Ret r ∧
    channel <$> m_trackReaders r = [(1%N, VideoTrack, true); (2%N, AudioTrack, true)] ∧
    length (filter (λ reader, TrackReader.enabled reader = true) (m_trackReaders r)) = 2.
Proof. exists scenarioParsed. by split_and!. Qed.

(** * Queries after a parse error *)

(** C4, as the code has it.  After a generation in which the parser reported
    a non-zero error code, whatever callbacks ran afterwards:
    [copyTrackArray], called off the main thread, returns the parsing-failure
    status and no track list; [copyProperty] for the duration key does not
    look at the status: it returns [noErr] with the dictionary of the stored
    duration, which is the duration of the empty segment, and it returns the
    value-not-available status only when that dictionary cannot be
    allocated. *)
Theorem queries_after_parse_error (byteSource : ByteSource)
    (callbacks : list ParserCallback) (r0 r : FormatReader)
    (errorCode : N) (t : Thread) (allocator : Allocator) :
  errorCode ≠ 0%N →
  isMainThread t = false →
  generation byteSource callbacks r0 = Ret r →
  DidEncounterErrorDuringParsing errorCode ∈ callbacks →
  copyTrackArray t r = Ret (kMTPluginFormatReaderError_ParsingFailure, None) ∧
  copyProperty kMTPluginFormatReaderProperty_Duration allocator r =
    Ret (if (allocate allocator).1
         then (noErr, Some (TimeDictionary (duration emptySegment)))
         else (kCMBaseObjectError_ValueNotAvailable, None)).
Proof.
  intros Hcode Ht Hgen Hin.
  destruct (generation_report _ _ _ _ _ [] emptySegment errorCode Hgen Hin eq_refl)
    as (Hstatus & Hduration & _).
  apply N.eqb_neq in Hcode. rewrite Hcode in Hstatus. split.
  - unfold copyTrackArray. by rewrite Ht, Hstatus.
  - unfold copyProperty, CMTimeCopyAsDictionary. rewrite Hstatus, Hduration.
    simpl. by destruct (allocate allocator).1.
Qed.

Lemma queries_after_parse_error_witness :
  5%N ≠ 0%N ∧
  isMainThread (OtherThread 1) = false ∧
  generation 7%N [DidEncounterErrorDuringParsing 5%N] create = Ret scenarioFailed ∧
  DidEncounterErrorDuringParsing 5%N ∈ [DidEncounterErrorDuringParsing 5%N] ∧
  copyTrackArray (OtherThread 1) scenarioFailed
    = Ret (kMTPluginFormatReaderError_ParsingFailure, None) ∧
  copyProperty kMTPluginFormatReaderProperty_Duration [false] scenarioFailed
    = Ret (if (allocate [false]).1
           then (noErr, Some (TimeDictionary (duration emptySegment)))
           else (kCMBaseObjectError_ValueNotAvailable, None)).
Proof.
  assert (5%N ≠ 0%N) as Hcode by (intros H; discriminate H).
  assert (DidEncounterErrorDuringParsing 5%N ∈ [DidEncounterErrorDuringParsing 5%N])
    as Hin by (apply list_elem_of_here).
  split_and!; [exact Hcode|reflexivity|reflexivity|exact Hin|..];
    apply (queries_after_parse_error 7%N [DidEncounterErrorDuringParsing 5%N]
             create scenarioFailed 5%N (OtherThread 1) [false]
             Hcode eq_refl eq_refl Hin).
Defined.

(** C4 as stated fails in its second half: after the parser has reported
    error 5 and no segment, [copyProperty] for the duration key returns
    [noErr] and a duration, not the value-not-available status. *)
Lemma copyProperty_returns_duration_after_parse_error :
  (generation 7%N [DidEncounterErrorDuringParsing 5%N] create
     ≫= copyTrackArray (OtherThread 1))
    = Ret (kMTPluginFormatReaderError_ParsingFailure, None)
  ∧ (generation 7%N [DidEncounterErrorDuringParsing 5%N] create
       ≫= copyProperty kMTPluginFormatReaderProperty_Duration [])
    = Ret (noErr, Some (TimeDictionary zeroTime))
  ∧ (generation 7%N [DidEncounterErrorDuringParsing 5%N] create
       ≫= copyProperty kMTPluginFormatReaderProperty_Duration [])
    ≠ Ret (kCMBaseObjectError_ValueNotAvailable, None).
Proof. split_and!; [reflexivity|reflexivity|discriminate]. Qed.

(** * Samples for unknown tracks *)

(** C5.  A media-sample callback whose track id is the id of no reader of the
    track list returns normally and leaves the reader exactly as it was:
    status, duration, byte source, the track list and every sample sequence
    in it. *)
Theorem didProvideMediaData_unknown_track (mediaSample : MediaSample)
    (trackID : N) (r : FormatReader) :
  Forall (λ reader, TrackReader.trackID reader ≠ trackID) (m_trackReaders r) →
  didProvideMediaData MainThread mediaSample trackID r = Ret r.
Proof.
  intros Hnone. unfold didProvideMediaData. simpl.
  by rewrite (proj2 (list_find_None _ _) Hnone).
Qed.

Lemma didProvideMediaData_unknown_track_witness :
  Forall (λ reader, TrackReader.trackID reader ≠ 3%N) (m_trackReaders scenarioParsed) ∧
  didProvideMediaData MainThread 102%N 3%N scenarioParsed = Ret scenarioParsed.
Proof.
  assert (Forall (λ reader, TrackReader.trackID reader ≠ 3%N)
                 (m_trackReaders scenarioParsed)) as Hnone.
  { repeat constructor; simpl; intros H; discriminate H. }
  split; [exact Hnone|].
  exact (didProvideMediaData_unknown_track 102%N 3%N scenarioParsed Hnone).
Defined.

(** * Agreement of the queries *)

(** C6.  Take a caller thread other than the main thread, a property key and
    an allocator.  In a state whose status is unset both [copyProperty] and
    [copyTrackArray] wait.  In a state [r] whose status is set both return,
    and whatever callbacks of the same generation run between [r] and a later
    state [r'], the two queries give at [r'] what they give at [r]: the same
    answer of [copyProperty] (and, whatever allocators the two callers pass,
    the same value whenever both get one), and from [copyTrackArray] the same
    status and a track list with the same channels in the same order. *)
Theorem queries_agree_within_generation (t : Thread) (key : CFString)
    (allocator : Allocator) (waiting r r' : FormatReader)
    (callbacks : list ParserCallback) :
  isMainThread t = false →
  m_parseTracksStatus waiting = None →
  is_Some (m_parseTracksStatus r) →
  deliverAll callbacks r = Ret r' →
  (copyProperty key allocator waiting = Waits ∧ copyTrackArray t waiting = Waits) ∧
  (∃ answer, copyProperty key allocator r = Ret answer ∧
             copyProperty key allocator r' = Ret answer) ∧
  (∀ allocator' status status' value value',
     copyProperty key allocator r = Ret (status, Some value) →
     copyProperty key allocator' r' = Ret (status', Some value') →
     value = value') ∧
  (∃ status tracks tracks',
     copyTrackArray t r = Ret (status, tracks) ∧
     copyTrackArray t r' = Ret (status, tracks') ∧
     m_parseTracksStatus r = Some status ∧
     channels <$> tracks = channels <$> tracks').
Proof.
  intros Ht Hwaiting [status Hstatus] Hrun.
  destruct (deliverAll_concluded callbacks r r') as (_ & _ & Hd & Hs & Hc);
    [by rewrite Hstatus|done|].
  split_and!.
  - unfold copyProperty. by rewrite Hwaiting.
  - unfold copyTrackArray. by rewrite Ht, Hwaiting.
  - unfold copyProperty. rewrite Hs, Hd, Hstatus.
    destruct (CFEqual _ _); [|eauto].
    destruct (CMTimeCopyAsDictionary _ _); eauto.
  - intros allocator' status1 status2 value value'.
    unfold copyProperty, CMTimeCopyAsDictionary. rewrite Hs, Hd, Hstatus.
    destruct (CFEqual _ _); [|done].
    destruct (allocate allocator).1, (allocate allocator').1; congruence.
  - unfold copyTrackArray. rewrite Ht, Hs, Hstatus. simpl.
    case_bool_decide as Hok.
    + by exists status, None, None.
    + subst status.
      exists noErr, (Some (m_trackReaders r)), (Some (m_trackReaders r')).
      unfold channels. simpl. by rewrite Hc.
Qed.

Lemma queries_agree_within_generation_witness :
  isMainThread (OtherThread 2) = false ∧
  m_parseTracksStatus create = None ∧
  is_Some (m_parseTracksStatus scenarioParsed) ∧
  (∃ r', deliverAll [DidProvideMediaData 100%N 1%N; AppendDataReturned] scenarioParsed
           = Ret r' ∧
     (copyProperty kMTPluginFormatReaderProperty_Duration [] create = Waits ∧
      copyTrackArray (OtherThread 2) create = Waits) ∧
     (∃ answer,
        copyProperty kMTPluginFormatReaderProperty_Duration [] scenarioParsed = Ret answer ∧
        copyProperty kMTPluginFormatReaderProperty_Duration [] r' = Ret answer) ∧
     (∀ allocator' status status' value value',
        copyProperty kMTPluginFormatReaderProperty_Duration [] scenarioParsed
          = Ret (status, Some value) →
        copyProperty kMTPluginFormatReaderProperty_Duration allocator' r'
          = Ret (status', Some value') →
        value = value') ∧
     (∃ status tracks tracks',
        copyTrackArray (OtherThread 2) scenarioParsed = Ret (status, tracks) ∧
        copyTrackArray (OtherThread 2) r' = Ret (status, tracks') ∧
        m_parseTracksStatus scenarioParsed = Some status ∧
        channels <$> tracks = channels <$> tracks')).
Proof.
  assert (is_Some (m_parseTracksStatus scenarioParsed)) as Hset
    by (exists noErr; reflexivity).
  split_and!; [reflexivity|reflexivity|exact Hset|].
  eexists. split; [reflexivity|].
  exact (queries_agree_within_generation (OtherThread 2)
           kMTPluginFormatReaderProperty_Duration [] create scenarioParsed _
           [DidProvideMediaData 100%N 1%N; AppendDataReturned]
           eq_refl eq_refl Hset eq_refl).
Defined.

(** * [finishParsing] *)

Lemma TrackReader_finishParsing_idempotent (reader : TrackReader.t) :
  TrackReader.finishParsing (TrackReader.finishParsing reader)
    = TrackReader.finishParsing reader.
Proof. reflexivity. Qed.

(** C7.  A call of [finishParsing] that returns leaves the status, the
    duration and the byte source as they were; the track list keeps its
    readers in their order, each with its channel and its samples, and each
    marked finished; and a second call returns the very state the first one
    produced. *)
Theorem finishParsing_frame_and_idempotent (r r' : FormatReader) :
  finishParsing MainThread r = Ret r' →
  m_parseTracksStatus r' = m_parseTracksStatus r ∧
  m_duration r' = m_duration r ∧
  m_byteSource r' = m_byteSource r ∧
  channel <$> m_trackReaders r' = channel <$> m_trackReaders r ∧
  TrackReader.samples <$> m_trackReaders r' = TrackReader.samples <$> m_trackReaders r ∧
  Forall (λ reader, TrackReader.finished reader = true) (m_trackReaders r') ∧
  finishParsing MainThread r' = Ret r'.
Proof.
  intros Hfirst.
  destruct (finishParsing_frame _ _ _ Hfirst) as (Hbs & Hd & Hs & Hc).
  apply finishParsing_Ret in Hfirst as (_ & Hset & ->). simpl in *.
  split_and!; try done.
  - rewrite <-list_fmap_compose. by apply list_fmap_ext.
  - apply Forall_fmap, Forall_forall. by intros reader _.
  - apply finishParsing_Ret. split_and!; [done..|]. simpl. f_equal.
    rewrite <-list_fmap_compose. apply list_fmap_ext. intros _ reader _.
    symmetry. apply TrackReader_finishParsing_idempotent.
Qed.

Lemma finishParsing_frame_and_idempotent_witness :
  ∃ r',
    finishParsing MainThread scenarioParsed = Ret r' ∧
    m_parseTracksStatus r' = m_parseTracksStatus scenarioParsed ∧
    m_duration r' = m_duration scenarioParsed ∧
    m_byteSource r' = m_byteSource scenarioParsed ∧
    channel <$> m_trackReaders r' = channel <$> m_trackReaders scenarioParsed ∧
    TrackReader.samples <$> m_trackReaders r'
      = TrackReader.samples <$> m_trackReaders scenarioParsed ∧
    Forall (λ reader, TrackReader.finished reader = true) (m_trackReaders r') ∧
    finishParsing MainThread r' = Ret r'.
Proof.
  eexists. split; [reflexivity|].
  exact (finishParsing_frame_and_idempotent scenarioParsed _ eq_refl).
Defined.

(** C10.  When a generation has seen no callback that reports an outcome,
    the status is still unset and [finishParsing] fails its assertion, on
    whatever thread: the closure that runs it after [appendData] has returned
    ends the run of the generation with a failed assertion. *)
Theorem finishParsing_requires_outcome (byteSource : ByteSource)
    (callbacks : list ParserCallback) (r0 r : FormatReader) (t : Thread) :
  Forall (λ callback, reportsOutcome callback = false) callbacks →
  generation byteSource callbacks r0 = Ret r →
  m_parseTracksStatus r = None ∧
  finishParsing t r = AssertFails ∧
  generation byteSource (callbacks ++ [AppendDataReturned]) r0 = AssertFails.
Proof.
  intros Hnone Hgen.
  assert (m_parseTracksStatus r = None) as Hstatus.
  { destruct (generation_invariant _ _ _ _ Hgen) as [_ Hinv].
    destruct (m_parseTracksStatus r) as [status|]; [|done].
    destruct Hinv as (a & segment & errorCode & Hone & _).
    assert ((a, segment, errorCode) ∈ omap outcomeReport callbacks) as Hin
      by (rewrite Hone; apply list_elem_of_here).
    apply list_elem_of_omap in Hin as (callback & Hin & Hreport).
    rewrite list.Forall_forall in Hnone.
    by rewrite (outcomeReport_None _ (Hnone _ Hin)) in Hreport. }
  assert (∀ t', finishParsing t' r = AssertFails) as Hfails.
  { intros t'. unfold finishParsing. rewrite !ASSERT_bind, Hstatus.
    by destruct (isMainThread t'). }
  split_and!; [done..|].
  unfold generation in *. destruct (parseByteSource _ _ _ _); try done.
  simpl in *. rewrite deliverAll_app, Hgen. simpl. by rewrite Hfails.
Qed.

Lemma finishParsing_requires_outcome_witness :
  Forall (λ callback, reportsOutcome callback = false) [DidProvideMediaData 100%N 1%N] ∧
  (∃ r,
     generation 7%N [DidProvideMediaData 100%N 1%N] create = Ret r ∧
     m_parseTracksStatus r = None ∧
     finishParsing MainThread r = AssertFails ∧
     generation 7%N ([DidProvideMediaData 100%N 1%N] ++ [AppendDataReturned]) create
       = AssertFails).
Proof.
  assert (Forall (λ callback, reportsOutcome callback = false)
                 [DidProvideMediaData 100%N 1%N]) as Hnone
    by (repeat constructor).
  split; [exact Hnone|]. eexists. split; [reflexivity|].
  exact (finishParsing_requires_outcome 7%N [DidProvideMediaData 100%N 1%N]
           create _ MainThread Hnone eq_refl).
Defined.

(** * [copyProperty] for other keys *)

(** C9.  For a key other than the duration key, [copyProperty] waits while
    the status is unset and, once it is set, returns the value-not-available
    status and no value, whatever the status is. *)
Theorem copyProperty_other_key (key : CFString) (allocator : Allocator)
    (r : FormatReader) :
  key ≠ kMTPluginFormatReaderProperty_Duration →
  copyProperty key allocator r =
    match m_parseTracksStatus r with
    | None => Waits
    | Some _ => Ret (kCMBaseObjectError_ValueNotAvailable, None)
    end.
Proof.
  intros Hkey. unfold copyProperty, CFEqual.
  by rewrite bool_decide_eq_false_2.
Qed.

Lemma copyProperty_other_key_witness :
  "Title"%string ≠ kMTPluginFormatReaderProperty_Duration ∧
  copyProperty "Title" [] scenarioParsed
    = Ret (kCMBaseObjectError_ValueNotAvailable, None) ∧
  copyProperty "Title" [] scenarioFailed
    = Ret (kCMBaseObjectError_ValueNotAvailable, None) ∧
  copyProperty "Title" [] create = Waits.
Proof.
  assert ("Title"%string ≠ kMTPluginFormatReaderProperty_Duration) as Hkey
    by (intros H; discriminate H).
  split_and!; [exact Hkey|..].
  - exact (copyProperty_other_key "Title" [] scenarioParsed Hkey).
  - exact (copyProperty_other_key "Title" [] scenarioFailed Hkey).
  - exact (copyProperty_other_key "Title" [] create Hkey).
Defined.

(** * [startOnMainThread] *)

(** C8, as the code has it.  Called on a thread other than the main thread,
    [startOnMainThread] leaves the reader untouched and queues
    [parseByteSource] for the main thread; when the main thread runs that
    closure, [parseByteSource] passes its thread assertion and changes the
    reader there.  Called on the main thread itself, [startOnMainThread]
    fails its assertion. *)
Theorem startOnMainThread_dispatches (t : Thread) (byteSource : ByteSource)
    (w : World) (parserCreated : bool) :
  isMainThread t = false →
  mainThreadQueue w = [] →
  startOnMainThread t byteSource w =
    Ret {| reader := reader w; mainThreadQueue := [byteSource] |} ∧
  (∃ r, parseByteSource MainThread parserCreated byteSource (reader w) = Ret r ∧
        (startOnMainThread t byteSource w ≫= runMainThreadTask parserCreated) =
          Ret {| reader := r; mainThreadQueue := [] |}) ∧
  startOnMainThread MainThread byteSource w = AssertFails.
Proof.
  intros Ht Hqueue. unfold startOnMainThread, callOnMainThread.
  rewrite Ht, Hqueue. simpl. split_and!; [done| |done].
  destruct parserCreated; eauto.
Qed.

Lemma startOnMainThread_dispatches_witness :
  isMainThread (OtherThread 3) = false ∧
  mainThreadQueue {| reader := create; mainThreadQueue := [] |} = [] ∧
  startOnMainThread (OtherThread 3) 7%N {| reader := create; mainThreadQueue := [] |} =
    Ret {| reader := create; mainThreadQueue := [7%N] |} ∧
  (∃ r, parseByteSource MainThread true 7%N create = Ret r ∧
        (startOnMainThread (OtherThread 3) 7%N {| reader := create; mainThreadQueue := [] |}
           ≫= runMainThreadTask true) =
          Ret {| reader := r; mainThreadQueue := [] |}) ∧
  startOnMainThread MainThread 7%N {| reader := create; mainThreadQueue := [] |}
    = AssertFails.
Proof.
  split_and!; [reflexivity|reflexivity|..];
    apply (startOnMainThread_dispatches (OtherThread 3) 7%N
             {| reader := create; mainThreadQueue := [] |} true eq_refl eq_refl).
Defined.

(** C8 as stated fails: called on the main thread, [startOnMainThread] fails
    its assertion [ASSERT(!isMainThread())]. *)
Lemma startOnMainThread_on_main_thread_fails :
  startOnMainThread MainThread 7%N {| reader := create; mainThreadQueue := [] |}
    = AssertFails.
Proof. reflexivity. Qed.

(** * Further properties of the code *)

(** ** The loops of [didParseTracks], whatever creations fail *)

Lemma foldl_preserves {S X : Type} (I : S → Prop) (body : S → X → S) :
  (∀ state x, I state → I (body state x)) →
  ∀ (l : list X) (state : S), I state → I (foldl body state l).
Proof.
  intros Hbody. induction l as [|x l IH]; intros state Hstate; simpl; auto.
Qed.

Lemma granted_one {A : Type} (a : Allocator) (x : A) :
  granted a [x] = [x] ∨ granted a [x] = [].
Proof. simpl. destruct (allocate a).1; auto. Qed.

Lemma granted_sublist {A : Type} (a : Allocator) (l : list A) :
  granted a l `sublist_of` l.
Proof.
  revert a. induction l as [|x l IH]; intros a; simpl; [constructor|].
  destruct (allocate a).1; by constructor.
Qed.

Lemma enableAt_lookup (k i : nat) (readers : list TrackReader.t) (reader : TrackReader.t) :
  enableAt k readers !! i = Some reader →
  ∃ old, readers !! i = Some old ∧
    reader = (if decide (k = i) then TrackReader.setEnabled true old else old).
Proof.
  unfold enableAt. rewrite list_lookup_alter. case_decide as Hk.
  - subst i. destruct (readers !! k) as [old|]; simpl; [|done].
    intros [= <-]. eauto.
  - eauto.
Qed.

Section Enabling.
Context (shouldBeEnabled : nat → TrackKind → Prop).

(** Appending a new reader that the rule does not name. *)
Lemma EnabledExactly_append (readers : list TrackReader.t) (kind : TrackKind)
    (info : TrackInformation) :
  EnabledExactly shouldBeEnabled readers →
  ¬ shouldBeEnabled (length readers) kind →
  EnabledExactly shouldBeEnabled (readers ++ [TrackReader.make kind info]).
Proof.
  intros Hold Hnot i reader [Hin|[Hge Hnew]]%lookup_app_Some; [by apply Hold|].
  apply list_lookup_singleton_Some in Hnew as [Hi <-]. simpl.
  replace i with (length readers) by lia. split; [done|by intros ?].
Qed.

(** Enabling a reader that the rule names. *)
Lemma EnabledExactly_enableAt (k : nat) (readers : list TrackReader.t) :
  EnabledExactly shouldBeEnabled readers →
  (∀ reader, readers !! k = Some reader →
     shouldBeEnabled k (TrackReader.mediaType reader)) →
  EnabledExactly shouldBeEnabled (enableAt k readers).
Proof.
  intros Hold Hk i reader (old & Hlookup & ->)%enableAt_lookup.
  case_decide as Hi; [|by apply Hold]. subst i. simpl.
  split; [|done]. intros _. by apply Hk.
Qed.

(** Appending a new reader that the rule names, and enabling it. *)
Lemma EnabledExactly_append_enable (readers : list TrackReader.t)
    (kind : TrackKind) (info : TrackInformation) :
  EnabledExactly shouldBeEnabled readers →
  shouldBeEnabled (length readers) kind →
  EnabledExactly shouldBeEnabled
    (enableAt (length readers) (readers ++ [TrackReader.make kind info])).
Proof.
  intros Hold Hnew. unfold enableAt.
  rewrite <-(Nat.add_0_r (length readers)) at 1. rewrite alter_app_r. simpl.
  intros i reader [Hin|[Hge Hlast]]%lookup_app_Some; [by apply Hold|].
  apply list_lookup_singleton_Some in Hlast as [Hi <-]. simpl.
  by replace i with (length readers) by lia.
Qed.

End Enabling.

(** A property of readers that [setEnabled] keeps and new readers have holds
    of every reader the three loops leave in the list. *)
Section LoopForall.
Context (Q : TrackReader.t → Prop).
Context (Q_setEnabled : ∀ reader, Q reader → Q (TrackReader.setEnabled true reader)).

Lemma Forall_enableAt (k : nat) (readers : list TrackReader.t) :
  Forall Q readers → Forall Q (enableAt k readers).
Proof using Q_setEnabled. intros H. apply Forall_alter; auto. Qed.

Lemma Forall_createAndAppend (kind : TrackKind) (info : TrackInformation)
    (state : list TrackReader.t * Allocator) :
  Q (TrackReader.make kind info) →
  Forall Q state.1 → Forall Q (createAndAppend kind info state).1.
Proof.
  destruct state as [readers a]. rewrite createAndAppend_eq. cbn [fst].
  intros Hnew Hold. apply Forall_app. split; [done|].
  destruct (granted_one a (TrackReader.make kind info)) as [-> | ->];
    by repeat constructor.
Qed.

Lemma Forall_appendTrackReaders (a : Allocator) (segment : InitializationSegment) :
  (∀ kind info, Q (TrackReader.make kind info)) →
  Forall Q (appendTrackReaders a segment []).
Proof using Q_setEnabled.
  intros Hnew. unfold appendTrackReaders.
  apply (foldl_preserves (λ state, Forall Q state.1)).
  { intros state info H. by apply Forall_createAndAppend. }
  apply (foldl_preserves (λ state, Forall Q state.1)).
  { intros state info H. unfold audioLoopBody. cbn [fst].
    destruct (_ =? _); [apply Forall_enableAt|]; by apply Forall_createAndAppend. }
  apply (foldl_preserves (λ state, Forall Q state.1)).
  { intros state info H. unfold videoLoopBody. cbn [fst].
    destruct (_ =? _); [apply Forall_enableAt|]; by apply Forall_createAndAppend. }
  constructor.
Qed.

End LoopForall.

Lemma videoLoop_length (a : Allocator) (videos : list TrackInformation) :
  length (foldl videoLoopBody ([], a) videos).1 ≤ length videos.
Proof.
  destruct (loop_descriptors VideoTrack videoLoopBody videoLoopBody_descriptors
              videos [] a) as [_ Hdescr].
  apply (f_equal length) in Hdescr. rewrite length_fmap in Hdescr.
  rewrite Hdescr. simpl. etrans; [apply sublist_length, granted_sublist|].
  by rewrite length_fmap.
Qed.

(** While the video loop runs all readers are video readers, and the enabled
    one is the one at index 0. *)
Lemma videoLoopBody_enabling (videoCount : nat)
    (state : list TrackReader.t * Allocator) (info : TrackInformation) :
  Forall (λ reader, TrackReader.mediaType reader = VideoTrack) state.1 ∧
  EnabledExactly (enablingRule videoCount) state.1 →
  Forall (λ reader, TrackReader.mediaType reader = VideoTrack)
         (videoLoopBody state info).1 ∧
  EnabledExactly (enablingRule videoCount) (videoLoopBody state info).1.
Proof.
  destruct state as [readers a]. simpl. intros [Hkinds Hrule]. split.
  { unfold videoLoopBody. cbn [fst].
    destruct (_ =? _); [apply Forall_enableAt; [done|]|];
      by apply Forall_createAndAppend. }
  unfold videoLoopBody. rewrite createAndAppend_eq. cbn [fst snd].
  destruct (granted_one a (TrackReader.make VideoTrack info)) as [-> | ->].
  - rewrite length_app. simpl length.
    destruct (Nat.eqb_spec (length readers + 1) 1) as [Hone|Hmore].
    + replace 0 with (length readers) by lia.
      apply EnabledExactly_append_enable; [done|]. left. split; [lia|done].
    + apply EnabledExactly_append; [done|]. intros [[? _]|[_ ?]]; [lia|done].
  - rewrite app_nil_r. destruct (_ =? _); [|done].
    apply EnabledExactly_enableAt; [done|]. intros reader Hlookup. left.
    split; [done|]. rewrite list.Forall_forall in Hkinds.
    by eapply Hkinds, list_elem_of_lookup_2.
Qed.

(** While the audio loop runs the video readers sit below index
    [videoCount], every other reader is an audio reader, and the enabling
    rule holds. *)
Lemma audioLoopBody_enabling (videoCount : nat)
    (state : list TrackReader.t * Allocator) (info : TrackInformation) :
  (∀ i reader, state.1 !! i = Some reader →
     (TrackReader.mediaType reader = VideoTrack ∧ i < videoCount) ∨
     TrackReader.mediaType reader = AudioTrack) ∧
  EnabledExactly (enablingRule videoCount) state.1 →
  (∀ i reader, (audioLoopBody videoCount state info).1 !! i = Some reader →
     (TrackReader.mediaType reader = VideoTrack ∧ i < videoCount) ∨
     TrackReader.mediaType reader = AudioTrack) ∧
  EnabledExactly (enablingRule videoCount) (audioLoopBody videoCount state info).1.
Proof.
  destruct state as [readers a]. simpl. intros [Hkinds Hrule].
  unfold audioLoopBody. rewrite createAndAppend_eq. cbn [fst snd].
  assert (∀ i reader,
            (readers ++ granted a [TrackReader.make AudioTrack info]) !! i = Some reader →
            (TrackReader.mediaType reader = VideoTrack ∧ i < videoCount) ∨
            TrackReader.mediaType reader = AudioTrack) as Hkinds'.
  { intros i reader [Hin|[_ Hnew]]%lookup_app_Some; [by apply Hkinds|].
    destruct (granted_one a (TrackReader.make AudioTrack info)) as [Hg|Hg];
      rewrite Hg in Hnew; [|done].
    apply list_lookup_singleton_Some in Hnew as [_ <-]. by right. }
  split.
  { intros i reader. destruct (_ =? _); [|by apply Hkinds'].
    intros (old & Hlookup & ->)%enableAt_lookup.
    replace (TrackReader.mediaType (if decide (videoCount = i)
               then TrackReader.setEnabled true old else old))
      with (TrackReader.mediaType old) by (by case_decide).
    by apply Hkinds'. }
  destruct (granted_one a (TrackReader.make AudioTrack info)) as [Hg|Hg];
    rewrite Hg in *.
  - rewrite length_app. simpl length.
    destruct (Nat.eqb_spec (length readers + 1) (videoCount + 1)) as [Hhit|Hmiss].
    + replace videoCount with (length readers) by lia.
      apply EnabledExactly_append_enable; [|right; split; [lia|done]].
      by replace (length readers) with videoCount by lia.
    + apply EnabledExactly_append; [done|]. intros [[_ ?]|[? _]]; [done|lia].
  - rewrite app_nil_r in *. destruct (_ =? _); [|done].
    apply EnabledExactly_enableAt; [done|]. intros reader Hlookup. right.
    split; [done|]. destruct (Hkinds _ _ Hlookup) as [[_ ?]|?]; [lia|done].
Qed.

Lemma textLoopBody_enabling (videoCount : nat)
    (state : list TrackReader.t * Allocator) (info : TrackInformation) :
  EnabledExactly (enablingRule videoCount) state.1 →
  EnabledExactly (enablingRule videoCount) (textLoopBody state info).1.
Proof.
  destruct state as [readers a]. simpl. intros Hrule.
  unfold textLoopBody. rewrite createAndAppend_eq. cbn [fst snd].
  destruct (granted_one a (TrackReader.make TextTrack info)) as [-> | ->].
  - apply EnabledExactly_append; [done|]. by intros [[_ ?]|[_ ?]].
  - by rewrite app_nil_r.
Qed.

Lemma appendTrackReaders_enabling (a : Allocator) (segment : InitializationSegment) :
  EnabledExactly (enablingRule (length (videoTracks segment)))
                 (appendTrackReaders a segment []).
Proof.
  unfold appendTrackReaders.
  apply (foldl_preserves (λ state, EnabledExactly _ state.1)).
  { intros state info. apply textLoopBody_enabling. }
  pose proof (videoLoop_length a (videoTracks segment)) as Hlength.
  pose proof (foldl_preserves _ videoLoopBody
                (λ state info, videoLoopBody_enabling (length (videoTracks segment)) state info)
                (videoTracks segment) ([], a)) as Hvideo.
  destruct Hvideo as [Hkinds Hrule]; [split; [constructor|by intros i reader ?]|].
  apply (foldl_preserves _ _
           (λ state info, audioLoopBody_enabling (length (videoTracks segment)) state info)).
  split; [|done]. intros i reader Hlookup. left.
  rewrite list.Forall_forall in Hkinds. split.
  - by eapply Hkinds, list_elem_of_lookup_2.
  - apply lookup_lt_Some in Hlookup. lia.
Qed.

(** ** Routing of media samples *)

Lemma alter_as_insert {A : Type} (f : A → A) (i : nat) (l : list A) (x : A) :
  l !! i = Some x → alter f i l = <[i:=f x]> l.
Proof.
  intros Hx. rewrite list_insert_alter. apply list_alter_ext; [|done].
  intros y Hy. congruence.
Qed.

(** One media-data callback, seen reader by reader, when the track ids of the
    readers are pairwise different. *)
Lemma didProvideMediaData_lookup (mediaSample : MediaSample) (trackID : N)
    (r : FormatReader) :
  NoDup (TrackReader.trackID <$> m_trackReaders r) →
  ∃ r',
    didProvideMediaData MainThread mediaSample trackID r = Ret r' ∧
    m_byteSource r' = m_byteSource r ∧ m_duration r' = m_duration r ∧
    m_parseTracksStatus r' = m_parseTracksStatus r ∧
    TrackReader.trackID <$> m_trackReaders r' = TrackReader.trackID <$> m_trackReaders r ∧
    ∀ i reader, m_trackReaders r !! i = Some reader →
      m_trackReaders r' !! i =
        Some (if decide (trackID = TrackReader.trackID reader)
              then TrackReader.addSample mediaSample (m_byteSource r) reader
              else reader).
Proof.
  intros Hunique. unfold didProvideMediaData. simpl.
  destruct (list_find _ _) as [[k found]|] eqn:Hfind.
  - apply list_find_Some in Hfind as (Hk & Hid & _).
    eexists. split; [done|]. simpl. split_and!; try done.
    { by apply fmap_alter_invariant. }
    intros i reader Hi. rewrite list_lookup_alter.
    destruct (decide (k = i)) as [->|Hne].
    + rewrite Hi in Hk. injection Hk as ->. rewrite Hi. simpl.
      by rewrite decide_True.
    + rewrite Hi, decide_False; [done|]. intros Hsame. apply Hne.
      apply (NoDup_lookup _ k i trackID Hunique).
      * by rewrite list_lookup_fmap, Hk; simpl; rewrite Hid.
      * by rewrite list_lookup_fmap, Hi; simpl; rewrite Hsame.
  - apply list_find_None in Hfind. rewrite list.Forall_forall in Hfind.
    exists r. split_and!; try done.
    intros i reader Hi. rewrite Hi, decide_False; [done|].
    intros Hsame. by eapply Hfind; [eapply list_elem_of_lookup_2|].
Qed.

(** X1.  A media-data callback hands the sample, with the reader's current
    byte source, to the first reader of the track list that has the track
    id, and to that one only: readers further down with the same id, like
    all other readers and the other fields, stay as they are. *)
Theorem didProvideMediaData_first_match (mediaSample : MediaSample) (trackID : N)
    (r : FormatReader) (i : nat) (reader : TrackReader.t) :
  m_trackReaders r !! i = Some reader →
  TrackReader.trackID reader = trackID →
  (∀ j other, j < i → m_trackReaders r !! j = Some other →
     TrackReader.trackID other ≠ trackID) →
  didProvideMediaData MainThread mediaSample trackID r =
    Ret {| m_byteSource := m_byteSource r; m_duration := m_duration r;
           m_parseTracksStatus := m_parseTracksStatus r;
           m_trackReaders :=
             <[i:=TrackReader.addSample mediaSample (m_byteSource r) reader]>
               (m_trackReaders r) |}.
Proof.
  intros Hi Hid Hfirst. unfold didProvideMediaData. simpl.
  assert (list_find (λ x, TrackReader.trackID x = trackID) (m_trackReaders r)
            = Some (i, reader)) as ->.
  { apply list_find_Some. split_and!; try done.
    intros j other Hj Hlt. by eapply Hfirst. }
  by rewrite (alter_as_insert _ _ _ reader).
Qed.

(** X2.  When the readers have pairwise different track ids, a run of
    media-data callbacks always goes through, changes neither status,
    duration nor byte source, keeps every reader in its place with its
    channel and its finished mark, and leaves each reader with the samples it
    had followed by the samples addressed to its track id, in the order of
    their delivery and each with the current byte source.  Samples addressed
    to other ids reach no reader. *)
Theorem media_samples_demultiplexed (deliveries : list (MediaSample * N))
    (r : FormatReader) :
  NoDup (TrackReader.trackID <$> m_trackReaders r) →
  ∃ r',
    deliverAll (mediaData deliveries) r = Ret r' ∧
    m_byteSource r' = m_byteSource r ∧ m_duration r' = m_duration r ∧
    m_parseTracksStatus r' = m_parseTracksStatus r ∧
    length (m_trackReaders r') = length (m_trackReaders r) ∧
    ∀ i reader, m_trackReaders r !! i = Some reader →
      ∃ reader',
        m_trackReaders r' !! i = Some reader' ∧
        channel reader' = channel reader ∧
        TrackReader.finished reader' = TrackReader.finished reader ∧
        TrackReader.samples reader' =
          TrackReader.samples reader
          ++ ((λ delivery, (delivery.1, m_byteSource r))
                <$> filter (λ delivery, delivery.2 = TrackReader.trackID reader)
                           deliveries).
Proof.
  revert r. induction deliveries as [|[mediaSample trackID] deliveries IH];
    intros r Hunique.
  - exists r. split_and!; try done. intros i reader Hi. exists reader.
    by rewrite app_nil_r.
  - destruct (didProvideMediaData_lookup mediaSample trackID r Hunique)
      as (r1 & Hstep & Hbs1 & Hd1 & Hs1 & Hids1 & Hreaders1).
    destruct (IH r1) as (r' & Hrun & Hbs & Hd & Hs & Hlen & Hreaders);
      [by rewrite Hids1|].
    exists r'. split_and!; try congruence.
    { simpl. by rewrite Hstep. }
    { rewrite Hlen. apply (f_equal length) in Hids1.
      by rewrite !length_fmap in Hids1. }
    intros i reader Hi.
    destruct (Hreaders i _ (Hreaders1 i reader Hi))
      as (reader' & Hi' & Hchannel & Hfinished & Hsamples).
    exists reader'. rewrite Hbs1 in Hsamples. rewrite filter_cons. simpl.
    destruct (decide (trackID = TrackReader.trackID reader)) as [Hid|Hid];
      simpl in *; split_and!; try done.
    by rewrite Hsamples, <-app_assoc.
Qed.

(** ** What holds in every reachable state *)

Lemma EnabledExactly_channels (shouldBeEnabled : nat → TrackKind → Prop)
    (l l' : list TrackReader.t) :
  channel <$> l' = channel <$> l →
  EnabledExactly shouldBeEnabled l → EnabledExactly shouldBeEnabled l'.
Proof.
  intros Hsame Hrule i reader Hlookup.
  destruct (channel_eq_lookup _ _ i reader Hsame Hlookup)
    as (old & Hold & Hchannel).
  unfold channel in Hchannel. injection Hchannel as _ Hkind Henabled.
  rewrite <-Hkind, <-Henabled. by apply Hrule.
Qed.

Lemma appendTrackReaders_empty : appendTrackReaders [] emptySegment [] = [].
Proof. reflexivity. Qed.

Lemma Consistent_create : Consistent create.
Proof.
  split; simpl; try done.
  - intros reader entry Hin. by apply elem_of_nil in Hin.
  - exists 0. by intros i reader ?.
Qed.

Lemma Consistent_parseByteSource (parserCreated : bool) (byteSource : ByteSource)
    (r r' : FormatReader) :
  Consistent r →
  parseByteSource MainThread parserCreated byteSource r = Ret r' →
  Consistent r'.
Proof.
  intros [Hclean Hknown Hfailure Hsamples Hrule].
  destruct parserCreated; simpl; intros [= <-]; split; simpl; try done.
  - intros reader entry Hin. by apply elem_of_nil in Hin.
  - exists 0. by intros i reader ?.
Qed.

Lemma Consistent_didParseTracks (callback : ParserCallback) (a : Allocator)
    (segment : InitializationSegment) (errorCode : N) (r r' : FormatReader) :
  outcomeReport callback = Some (a, segment, errorCode) →
  didParseTracks MainThread a segment errorCode r = Ret r' →
  Consistent r'.
Proof.
  intros Hreport (_ & _ & _ & _ & ->)%didParseTracks_Ret.
  split; simpl; try done.
  - by destruct (errorCode =? 0)%N.
  - destruct callback; try done; simpl in Hreport.
    + by injection Hreport as <- <- <-.
    + by injection Hreport as <- <- <-.
  - intros reader entry Hin.
    assert (TrackReader.samples reader = []) as ->; [|by intros ?%elem_of_nil].
    revert reader Hin. apply list.Forall_forall.
    by apply Forall_appendTrackReaders.
  - eexists. apply appendTrackReaders_enabling.
Qed.

Lemma Consistent_didProvideMediaData (mediaSample : MediaSample) (trackID : N)
    (r r' : FormatReader) :
  Consistent r →
  didProvideMediaData MainThread mediaSample trackID r = Ret r' →
  Consistent r'.
Proof.
  intros [Hclean Hknown Hfailure Hsamples [videoCount Hrule]] Hstep.
  destruct (didProvideMediaData_frame _ _ _ _ _ Hstep) as (Hbs & Hd & Hs & Hc).
  split.
  - rewrite Hs, Hd. intros [? Hnone]%Hclean. rewrite Hnone in Hc.
    by apply fmap_nil_inv in Hc.
  - by rewrite Hs.
  - rewrite Hs, Hd. intros [? Hnone]%Hfailure. rewrite Hnone in Hc.
    by apply fmap_nil_inv in Hc.
  - rewrite Hbs. revert Hstep. unfold didProvideMediaData. simpl.
    destruct (list_find _ _) as [[k found]|]; intros [= <-]; simpl; [|done].
    intros reader entry [i Hi]%list_elem_of_lookup_1.
    rewrite list_lookup_alter in Hi. case_decide as Hk.
    + subst i. destruct (m_trackReaders r !! k) as [old|] eqn:Hold; [|done].
      injection Hi as <-. simpl.
      intros [Hin| ->%list_elem_of_singleton]%elem_of_app; [|done].
      by eapply Hsamples; [eapply list_elem_of_lookup_2|].
    + by eapply Hsamples, list_elem_of_lookup_2.
  - exists videoCount. by eapply EnabledExactly_channels.
Qed.

Lemma Consistent_finishParsing (r r' : FormatReader) :
  Consistent r → finishParsing MainThread r = Ret r' → Consistent r'.
Proof.
  intros [Hclean Hknown Hfailure Hsamples [videoCount Hrule]] Hstep.
  destruct (finishParsing_frame _ _ _ Hstep) as (Hbs & Hd & Hs & Hc).
  apply finishParsing_Ret in Hstep as (_ & _ & ->). simpl in *.
  split; simpl.
  - by intros [? ->]%Hclean.
  - done.
  - by intros [? ->]%Hfailure.
  - intros reader entry (old & -> & Hold)%list_elem_of_fmap. simpl.
    by apply Hsamples.
  - exists videoCount. by eapply EnabledExactly_channels.
Qed.

Lemma Consistent_handle (event : Event) (r r' : FormatReader) :
  Consistent r → handle r event = Ret r' → Consistent r'.
Proof.
  intros Hr. destruct event as [parserCreated byteSource|callback]; simpl.
  - by apply Consistent_parseByteSource.
  - destruct (outcomeReport callback) as [[[a segment] errorCode]|] eqn:Hreport.
    + rewrite (deliver_report _ _ _ _ _ Hreport).
      by apply (Consistent_didParseTracks callback).
    + destruct callback; try discriminate; simpl.
      * by apply Consistent_didProvideMediaData.
      * by apply Consistent_finishParsing.
Qed.

Lemma Consistent_handleAll (events : list Event) (r r' : FormatReader) :
  Consistent r → handleAll events r = Ret r' → Consistent r'.
Proof.
  revert r. induction events as [|event events IH]; intros r Hr; simpl.
  - by intros [= <-].
  - intros (r1 & Hfirst & Hlater)%bind_Ret_inv.
    eauto using Consistent_handle.
Qed.

Lemma reachable_Consistent (r : FormatReader) : reachable r → Consistent r.
Proof. intros [events Hrun]. eauto using Consistent_handleAll, Consistent_create. Qed.

Lemma reachable_scenarioParsed : reachable scenarioParsed.
Proof.
  by exists [StartParse true 7%N;
             Callback (DidParseInitializationData [] scenarioSegment)].
Qed.

Lemma didProvideMediaData_first_match_witness :
  m_trackReaders scenarioParsed !! 1 =
    Some (TrackReader.setEnabled true
            (TrackReader.make AudioTrack {| description := "opus"; track := 2%N |})) ∧
  didProvideMediaData MainThread 200%N 2%N scenarioParsed =
    Ret {| m_byteSource := Some 7%N; m_duration := validTime 125 10;
           m_parseTracksStatus := Some noErr;
           m_trackReaders :=
             <[1:=TrackReader.addSample 200%N (Some 7%N)
                    (TrackReader.setEnabled true
                       (TrackReader.make AudioTrack {| description := "opus"; track := 2%N |}))]>
               (m_trackReaders scenarioParsed) |}.
Proof.
  split; [reflexivity|].
  apply (didProvideMediaData_first_match 200%N 2%N scenarioParsed 1 _ eq_refl eq_refl).
  intros [|[|j]] other Hlt Hlookup; [|lia..].
  injection Hlookup as <-. simpl. intros H; discriminate H.
Defined.

Lemma media_samples_demultiplexed_witness :
  NoDup (TrackReader.trackID <$> m_trackReaders scenarioParsed) ∧
  ∃ r',
    deliverAll (mediaData scenarioDeliveries) scenarioParsed = Ret r' ∧
    m_byteSource r' = m_byteSource scenarioParsed ∧
    m_duration r' = m_duration scenarioParsed ∧
    m_parseTracksStatus r' = m_parseTracksStatus scenarioParsed ∧
    length (m_trackReaders r') = length (m_trackReaders scenarioParsed) ∧
    ∀ i reader, m_trackReaders scenarioParsed !! i = Some reader →
      ∃ reader',
        m_trackReaders r' !! i = Some reader' ∧
        channel reader' = channel reader ∧
        TrackReader.finished reader' = TrackReader.finished reader ∧
        TrackReader.samples reader' =
          TrackReader.samples reader
          ++ ((λ delivery, (delivery.1, m_byteSource scenarioParsed))
                <$> filter (λ delivery, delivery.2 = TrackReader.trackID reader)
                           scenarioDeliveries).
Proof.
  assert (NoDup (TrackReader.trackID <$> m_trackReaders scenarioParsed)) as Hunique.
  { apply (bool_decide_unpack _). vm_compute. reflexivity. }
  split; [exact Hunique|].
  exact (media_samples_demultiplexed scenarioDeliveries scenarioParsed Hunique).
Defined.

(** ** What [didParseTracks] leaves in the track list *)

(** X3.  Whatever reader creations fail, the readers that [didParseTracks]
    leaves enabled are exactly: the reader at index 0 when it is a video
    reader, and the reader at index [segment.videoTracks.size()] when it is
    an audio reader.  No text reader and no other video or audio reader is
    enabled. *)
Theorem didParseTracks_enables_by_rule (t : Thread) (a : Allocator)
    (segment : InitializationSegment) (errorCode : N) (r r' : FormatReader)
    (i : nat) (reader : TrackReader.t) :
  didParseTracks t a segment errorCode r = Ret r' →
  m_trackReaders r' !! i = Some reader →
  (TrackReader.enabled reader = true ↔
     (i = 0 ∧ TrackReader.mediaType reader = VideoTrack) ∨
     (i = length (videoTracks segment) ∧ TrackReader.mediaType reader = AudioTrack)).
Proof.
  intros (_ & _ & _ & _ & ->)%didParseTracks_Ret. simpl.
  apply appendTrackReaders_enabling.
Qed.

Lemma didParseTracks_enables_by_rule_witness :
  didParseTracks MainThread [false] scenarioSegment 0%N scenarioStarted =
    Ret {| m_byteSource := Some 7%N; m_duration := validTime 125 10;
           m_parseTracksStatus := Some noErr;
           m_trackReaders :=
             [TrackReader.make AudioTrack {| description := "opus"; track := 2%N |}] |} ∧
  (TrackReader.enabled
     (TrackReader.make AudioTrack {| description := "opus"; track := 2%N |}) = true ↔
     (0 = 0 ∧ AudioTrack = VideoTrack) ∨
     (0 = length (videoTracks scenarioSegment) ∧ AudioTrack = AudioTrack)).
Proof.
  split; [reflexivity|].
  exact (didParseTracks_enables_by_rule MainThread [false] scenarioSegment 0%N
           scenarioStarted _ 0 _ eq_refl eq_refl).
Defined.

(** X4.  Whatever reader creations fail, every reader that [didParseTracks]
    leaves in the track list is new (no samples, not finished), and the
    descriptors of the list are taken from the segment's video, audio and
    text descriptors without reordering or repetition: the list is never
    longer than the segment declares. *)
Theorem didParseTracks_readers_new_and_declared (t : Thread) (a : Allocator)
    (segment : InitializationSegment) (errorCode : N) (r r' : FormatReader) :
  didParseTracks t a segment errorCode r = Ret r' →
  Forall (λ reader, TrackReader.samples reader = [] ∧
                    TrackReader.finished reader = false) (m_trackReaders r') ∧
  descriptor <$> m_trackReaders r' `sublist_of` descriptors segment ∧
  length (m_trackReaders r') ≤
    length (videoTracks segment) + length (audioTracks segment)
    + length (textTracks segment).
Proof.
  intros (_ & _ & _ & _ & ->)%didParseTracks_Ret. simpl.
  assert (descriptor <$> appendTrackReaders a segment []
            `sublist_of` descriptors segment) as Hsub.
  { rewrite appendTrackReaders_descriptors. apply granted_sublist. }
  split_and!; [by apply Forall_appendTrackReaders|done|].
  apply sublist_length in Hsub. unfold descriptors in Hsub.
  rewrite !length_app, !length_fmap in Hsub. lia.
Qed.

Lemma didParseTracks_readers_new_and_declared_witness :
  ∃ r',
    didParseTracks MainThread [true; false] scenarioSegment 0%N scenarioStarted = Ret r' ∧
    Forall (λ reader, TrackReader.samples reader = [] ∧
                      TrackReader.finished reader = false) (m_trackReaders r') ∧
    descriptor <$> m_trackReaders r' `sublist_of` descriptors scenarioSegment ∧
    length (m_trackReaders r') ≤
      length (videoTracks scenarioSegment) + length (audioTracks scenarioSegment)
      + length (textTracks scenarioSegment).
Proof.
  eexists. split; [reflexivity|].
  exact (didParseTracks_readers_new_and_declared MainThread [true; false]
           scenarioSegment 0%N scenarioStarted _ eq_refl).
Defined.

(** ** Invariants of the reachable states *)

(** X5.  In a reachable state, [didParseTracks] on the main thread returns
    exactly when the status is unset: its two further assertions, on the
    duration and on the track list, never fail by themselves. *)
Theorem didParseTracks_runs_iff_status_unset (a : Allocator)
    (segment : InitializationSegment) (errorCode : N) (r : FormatReader) :
  reachable r →
  (∃ r', didParseTracks MainThread a segment errorCode r = Ret r') ↔
  m_parseTracksStatus r = None.
Proof.
  intros [Hclean _ _ _ _]%reachable_Consistent. split.
  - by intros [r' (_ & Hunset & _)%didParseTracks_Ret].
  - intros Hunset. destruct (Hclean Hunset) as [Hduration Hreaders].
    eexists. by apply didParseTracks_Ret.
Qed.

Lemma didParseTracks_runs_iff_status_unset_witness :
  reachable scenarioParsed ∧
  ((∃ r', didParseTracks MainThread [] emptySegment 5%N scenarioParsed = Ret r') ↔
   m_parseTracksStatus scenarioParsed = None).
Proof.
  split; [exact reachable_scenarioParsed|].
  exact (didParseTracks_runs_iff_status_unset [] emptySegment 5%N scenarioParsed
           reachable_scenarioParsed).
Defined.

(** X6.  In a reachable state every sample stored in a reader of the track
    list is stored with the byte source the reader currently holds: samples
    of an earlier byte source do not survive a new start, and a start that
    gets no parser does not change the byte source. *)
Theorem samples_carry_current_byteSource (r : FormatReader)
    (reader : TrackReader.t) (entry : MediaSample * option ByteSource) :
  reachable r →
  reader ∈ m_trackReaders r →
  entry ∈ TrackReader.samples reader →
  entry.2 = m_byteSource r.
Proof. intros [_ _ _ Hsamples _]%reachable_Consistent. apply Hsamples. Qed.

Lemma samples_carry_current_byteSource_witness :
  handleAll [StartParse true 7%N;
             Callback (DidParseInitializationData [false] scenarioSegment);
             Callback (DidProvideMediaData 200%N 2%N);
             StartParse false 8%N;
             Callback (DidProvideMediaData 201%N 2%N)] create
    = Ret {| m_byteSource := Some 7%N; m_duration := validTime 125 10;
             m_parseTracksStatus := Some kMTPluginFormatReaderError_AllocationFailure;
             m_trackReaders :=
               [ {| TrackReader.trackID := 2; TrackReader.mediaType := AudioTrack;
                    TrackReader.enabled := false;
                    TrackReader.samples := [(200%N, Some 7%N); (201%N, Some 7%N)];
                    TrackReader.finished := false |} ] |} ∧
  (201%N, Some 7%N).2 = Some 7%N.
Proof.
  split; [reflexivity|].
  apply (samples_carry_current_byteSource
           {| m_byteSource := Some 7%N; m_duration := validTime 125 10;
              m_parseTracksStatus := Some kMTPluginFormatReaderError_AllocationFailure;
              m_trackReaders :=
                [ {| TrackReader.trackID := 2; TrackReader.mediaType := AudioTrack;
                     TrackReader.enabled := false;
                     TrackReader.samples := [(200%N, Some 7%N); (201%N, Some 7%N)];
                     TrackReader.finished := false |} ] |}
           {| TrackReader.trackID := 2; TrackReader.mediaType := AudioTrack;
              TrackReader.enabled := false;
              TrackReader.samples := [(200%N, Some 7%N); (201%N, Some 7%N)];
              TrackReader.finished := false |}
           (201%N, Some 7%N)).
  - exists [StartParse true 7%N;
            Callback (DidParseInitializationData [false] scenarioSegment);
            Callback (DidProvideMediaData 200%N 2%N);
            StartParse false 8%N;
            Callback (DidProvideMediaData 201%N 2%N)]. reflexivity.
  - apply list_elem_of_here.
  - apply list_elem_of_further, list_elem_of_here.
Defined.

(** X7.  In a reachable state [copyTrackArray], called off the main thread,
    either waits, or returns [noErr] with the whole track list, or returns
    the allocation-failure or the parsing-failure status without a list; it
    returns no other status and fails no assertion. *)
Theorem copyTrackArray_answers (t : Thread) (r : FormatReader) :
  reachable r →
  isMainThread t = false →
  copyTrackArray t r = Waits ∨
  copyTrackArray t r = Ret (noErr, Some (m_trackReaders r)) ∨
  copyTrackArray t r = Ret (kMTPluginFormatReaderError_AllocationFailure, None) ∨
  copyTrackArray t r = Ret (kMTPluginFormatReaderError_ParsingFailure, None).
Proof.
  intros [_ Hknown _ _ _]%reachable_Consistent Ht.
  unfold copyTrackArray. rewrite Ht. simpl.
  destruct (m_parseTracksStatus r) as [[]|]; simpl; auto.
  by destruct Hknown.
Qed.

Lemma copyTrackArray_answers_witness :
  reachable scenarioParsed ∧
  isMainThread (OtherThread 1) = false ∧
  (copyTrackArray (OtherThread 1) scenarioParsed = Waits ∨
   copyTrackArray (OtherThread 1) scenarioParsed
     = Ret (noErr, Some (m_trackReaders scenarioParsed)) ∨
   copyTrackArray (OtherThread 1) scenarioParsed
     = Ret (kMTPluginFormatReaderError_AllocationFailure, None) ∨
   copyTrackArray (OtherThread 1) scenarioParsed
     = Ret (kMTPluginFormatReaderError_ParsingFailure, None)).
Proof.
  split_and!; [exact reachable_scenarioParsed|reflexivity|].
  exact (copyTrackArray_answers (OtherThread 1) scenarioParsed
           reachable_scenarioParsed eq_refl).
Defined.

(** X8.  In a reachable state whose status is the parsing failure, the track
    list is empty and the duration is the one of the empty segment: the
    error callback never leaves tracks behind. *)
Theorem parsing_failure_has_no_tracks (r : FormatReader) :
  reachable r →
  m_parseTracksStatus r = Some kMTPluginFormatReaderError_ParsingFailure →
  m_trackReaders r = [] ∧ m_duration r = duration emptySegment.
Proof.
  intros [_ _ Hfailure _ _]%reachable_Consistent Hstatus.
  by destruct (Hfailure Hstatus).
Qed.

Lemma parsing_failure_has_no_tracks_witness :
  reachable scenarioFailed ∧
  m_parseTracksStatus scenarioFailed = Some kMTPluginFormatReaderError_ParsingFailure ∧
  m_trackReaders scenarioFailed = [] ∧ m_duration scenarioFailed = duration emptySegment.
Proof.
  assert (reachable scenarioFailed) as Hreach.
  { exists [StartParse true 7%N; Callback (DidEncounterErrorDuringParsing 5%N)].
    reflexivity. }
  split_and!; [exact Hreach|reflexivity|..];
    apply (parsing_failure_has_no_tracks scenarioFailed Hreach eq_refl).
Defined.

(** X9.  In a reachable state no text reader is enabled, and two enabled
    readers of the same kind are one and the same entry of the track list:
    at most one video reader and at most one audio reader are enabled,
    whatever creations failed and whatever starts and callbacks came. *)
Theorem reachable_enabled_readers (r : FormatReader) (i j : nat)
    (first second : TrackReader.t) :
  reachable r →
  m_trackReaders r !! i = Some first →
  m_trackReaders r !! j = Some second →
  TrackReader.enabled first = true →
  TrackReader.enabled second = true →
  TrackReader.mediaType first ≠ TextTrack ∧
  (TrackReader.mediaType first = TrackReader.mediaType second → i = j).
Proof.
  intros [_ _ _ _ [videoCount Hrule]]%reachable_Consistent Hi Hj Hfirst Hsecond.
  apply (Hrule _ _ Hi) in Hfirst. apply (Hrule _ _ Hj) in Hsecond.
  destruct Hfirst as [[-> Hk1]|[-> Hk1]], Hsecond as [[-> Hk2]|[-> Hk2]];
    rewrite Hk1, Hk2; by split.
Qed.

Lemma reachable_enabled_readers_witness :
  reachable scenarioParsed ∧
  m_trackReaders scenarioParsed !! 0 =
    Some (TrackReader.setEnabled true
            (TrackReader.make VideoTrack {| description := "vp9"; track := 1%N |})) ∧
  m_trackReaders scenarioParsed !! 1 =
    Some (TrackReader.setEnabled true
            (TrackReader.make AudioTrack {| description := "opus"; track := 2%N |})) ∧
  VideoTrack ≠ TextTrack ∧
  (VideoTrack = AudioTrack → 0 = 1).
Proof.
  split_and!; [exact reachable_scenarioParsed|reflexivity|reflexivity|..];
    apply (reachable_enabled_readers scenarioParsed 0 1
             (TrackReader.setEnabled true
                (TrackReader.make VideoTrack {| description := "vp9"; track := 1%N |}))
             (TrackReader.setEnabled true
                (TrackReader.make AudioTrack {| description := "opus"; track := 2%N |}))
             reachable_scenarioParsed eq_refl eq_refl eq_refl eq_refl).
Defined.

(** ** Queries and callbacks within a generation *)

Lemma outcomeReport_is_Some (callback : ParserCallback) :
  reportsOutcome callback = true → is_Some (outcomeReport callback).
Proof. destruct callback; simpl; by eauto. Qed.

Lemma no_report_iff (callbacks : list ParserCallback) :
  omap outcomeReport callbacks = [] ↔
  Forall (λ callback, reportsOutcome callback = false) callbacks.
Proof.
  induction callbacks as [|callback callbacks IH]; simpl.
  - split; [constructor|done].
  - rewrite list.Forall_cons, <-IH.
    destruct callback; simpl; split; try done; try (by intros [? _]).
    + by intros [_ ?].
    + by intros [_ ?].
Qed.

(** X10.  After a generation in which the parser delivered the
    initialization segment [segment], whatever media data and finishing came
    later, [copyProperty] for the duration key returns [noErr] with the
    dictionary of the duration of that segment, unless the dictionary cannot
    be allocated. *)
Theorem copyProperty_returns_segment_duration (byteSource : ByteSource)
    (callbacks : list ParserCallback) (r0 r : FormatReader)
    (a allocator : Allocator) (segment : InitializationSegment) :
  generation byteSource callbacks r0 = Ret r →
  DidParseInitializationData a segment ∈ callbacks →
  copyProperty kMTPluginFormatReaderProperty_Duration allocator r =
    Ret (if (allocate allocator).1
         then (noErr, Some (TimeDictionary (duration segment)))
         else (kCMBaseObjectError_ValueNotAvailable, None)).
Proof.
  intros Hgen Hin.
  destruct (generation_report _ _ _ _ _ a segment 0%N Hgen Hin eq_refl)
    as (Hstatus & Hduration & _).
  unfold copyProperty, CMTimeCopyAsDictionary. rewrite Hstatus, Hduration. simpl.
  by destruct (allocate allocator).1.
Qed.

Lemma copyProperty_returns_segment_duration_witness :
  generation 7%N [DidParseInitializationData [] scenarioSegment;
                  DidProvideMediaData 100%N 1%N; AppendDataReturned] create
    = Ret {| m_byteSource := Some 7%N;
             m_duration := validTime 125 10;
             m_parseTracksStatus := Some noErr;
             m_trackReaders :=
               [ {| TrackReader.trackID := 1; TrackReader.mediaType := VideoTrack;
                    TrackReader.enabled := true;
                    TrackReader.samples := [(100%N, Some 7%N)];
                    TrackReader.finished := true |};
                 {| TrackReader.trackID := 2; TrackReader.mediaType := AudioTrack;
                    TrackReader.enabled := true;
                    TrackReader.samples := [];
                    TrackReader.finished := true |} ] |} ∧
  DidParseInitializationData [] scenarioSegment
    ∈ [DidParseInitializationData [] scenarioSegment;
       DidProvideMediaData 100%N 1%N; AppendDataReturned] ∧
  copyProperty kMTPluginFormatReaderProperty_Duration []
    {| m_byteSource := Some 7%N;
       m_duration := validTime 125 10;
       m_parseTracksStatus := Some noErr;
       m_trackReaders :=
         [ {| TrackReader.trackID := 1; TrackReader.mediaType := VideoTrack;
              TrackReader.enabled := true;
              TrackReader.samples := [(100%N, Some 7%N)];
              TrackReader.finished := true |};
           {| TrackReader.trackID := 2; TrackReader.mediaType := AudioTrack;
              TrackReader.enabled := true;
              TrackReader.samples := [];
              TrackReader.finished := true |} ] |}
    = Ret (if (allocate []).1
           then (noErr, Some (TimeDictionary (duration scenarioSegment)))
           else (kCMBaseObjectError_ValueNotAvailable, None)).
Proof.
  assert (DidParseInitializationData [] scenarioSegment
            ∈ [DidParseInitializationData [] scenarioSegment;
               DidProvideMediaData 100%N 1%N; AppendDataReturned]) as Hin
    by (apply list_elem_of_here).
  split_and!; [reflexivity|exact Hin|].
  exact (copyProperty_returns_segment_duration 7%N
           [DidParseInitializationData [] scenarioSegment;
            DidProvideMediaData 100%N 1%N; AppendDataReturned]
           create _ [] [] scenarioSegment eq_refl Hin).
Defined.

(** X11.  During a generation started with a parser, [copyProperty] and
    [copyTrackArray] (called off the main thread) wait exactly as long as no
    callback has reported an outcome: media data alone never releases a
    caller, and the initialization-data callback and the error callback both
    do. *)
Theorem queries_wait_until_report (byteSource : ByteSource)
    (callbacks : list ParserCallback) (r0 r : FormatReader) (t : Thread)
    (key : CFString) (allocator : Allocator) :
  isMainThread t = false →
  generation byteSource callbacks r0 = Ret r →
  (copyProperty key allocator r = Waits ↔
     Forall (λ callback, reportsOutcome callback = false) callbacks) ∧
  (copyTrackArray t r = Waits ↔
     Forall (λ callback, reportsOutcome callback = false) callbacks).
Proof.
  intros Ht [_ Hinv]%generation_invariant.
  rewrite <-no_report_iff. unfold copyProperty, copyTrackArray.
  rewrite Ht. simpl.
  destruct (m_parseTracksStatus r) as [status|].
  - destruct Hinv as (a & segment & errorCode & -> & _). split.
    + destruct (CFEqual _ _); [destruct (CMTimeCopyAsDictionary _ _)|]; done.
    + by case_bool_decide.
  - by destruct Hinv as (-> & _).
Qed.

Lemma queries_wait_until_report_witness :
  isMainThread (OtherThread 1) = false ∧
  generation 7%N [DidProvideMediaData 100%N 1%N] create = Ret scenarioStarted ∧
  (copyProperty kMTPluginFormatReaderProperty_Duration [] scenarioStarted = Waits ↔
     Forall (λ callback, reportsOutcome callback = false)
            [DidProvideMediaData 100%N 1%N]) ∧
  (copyTrackArray (OtherThread 1) scenarioStarted = Waits ↔
     Forall (λ callback, reportsOutcome callback = false)
            [DidProvideMediaData 100%N 1%N]).
Proof.
  split_and!; [reflexivity|reflexivity|..];
    apply (queries_wait_until_report 7%N [DidProvideMediaData 100%N 1%N]
             create scenarioStarted (OtherThread 1)
             kMTPluginFormatReaderProperty_Duration [] eq_refl eq_refl).
Defined.

(** X12.  After a [parseByteSource] that got no parser, and whatever
    callbacks (of earlier parsers) still run: the status stays the
    allocation failure, so [copyTrackArray] returns it without a list; no
    callback can report an outcome; and byte source, duration and channels
    are those from before the call, the byte source passed in being dropped. *)
Theorem start_without_parser_is_final (byteSource : ByteSource)
    (callbacks : list ParserCallback) (r r' : FormatReader) (t : Thread) :
  isMainThread t = false →
  (parseByteSource MainThread false byteSource r ≫= deliverAll callbacks) = Ret r' →
  m_parseTracksStatus r' = Some kMTPluginFormatReaderError_AllocationFailure ∧
  copyTrackArray t r' = Ret (kMTPluginFormatReaderError_AllocationFailure, None) ∧
  m_byteSource r' = m_byteSource r ∧ m_duration r' = m_duration r ∧
  channel <$> m_trackReaders r' = channel <$> m_trackReaders r ∧
  Forall (λ callback, reportsOutcome callback = false) callbacks.
Proof.
  intros Ht Hrun. simpl in Hrun.
  apply deliverAll_concluded in Hrun as (Hnone & Hbs & Hd & Hs & Hc);
    [|by eexists].
  simpl in *. split_and!; try done.
  unfold copyTrackArray. by rewrite Ht, Hs.
Qed.

Lemma start_without_parser_is_final_witness :
  isMainThread (OtherThread 1) = false ∧
  ∃ r',
    (parseByteSource MainThread false 8%N scenarioParsed
       ≫= deliverAll [DidProvideMediaData 100%N 1%N; AppendDataReturned]) = Ret r' ∧
    m_parseTracksStatus r' = Some kMTPluginFormatReaderError_AllocationFailure ∧
    copyTrackArray (OtherThread 1) r'
      = Ret (kMTPluginFormatReaderError_AllocationFailure, None) ∧
    m_byteSource r' = m_byteSource scenarioParsed ∧
    m_duration r' = m_duration scenarioParsed ∧
    channel <$> m_trackReaders r' = channel <$> m_trackReaders scenarioParsed ∧
    Forall (λ callback, reportsOutcome callback = false)
           [DidProvideMediaData 100%N 1%N; AppendDataReturned].
Proof.
  split; [reflexivity|]. eexists. split; [reflexivity|].
  exact (start_without_parser_is_final 8%N
           [DidProvideMediaData 100%N 1%N; AppendDataReturned]
           scenarioParsed _ (OtherThread 1) eq_refl eq_refl).
Defined.

Lemma deliver_never_waits (r : FormatReader) (callback : ParserCallback) :
  deliver r callback ≠ Waits.
Proof.
  destruct callback; simpl.
  - unfold didParseTracks. rewrite !ASSERT_bind.
    by repeat (case_match; try done).
  - unfold didParseTracks. rewrite !ASSERT_bind.
    by repeat (case_match; try done).
  - unfold didProvideMediaData. simpl. by repeat case_match.
  - unfold finishParsing. rewrite !ASSERT_bind. simpl. by case_match.
Qed.

Lemma deliverAll_never_waits (callbacks : list ParserCallback) (r : FormatReader) :
  deliverAll callbacks r ≠ Waits.
Proof.
  revert r. induction callbacks as [|callback callbacks IH]; intros r; [done|].
  simpl. pose proof (deliver_never_waits r callback) as Hfirst.
  destruct (deliver r callback); simpl; [apply IH|done|done].
Qed.

(** X13.  A generation in which two callbacks report an outcome, for
    instance a parse error met after the initialization segment was
    delivered, does not run to its end and does not overwrite the outcome:
    it stops at a failed assertion. *)
Theorem second_report_fails_assertion (byteSource : ByteSource)
    (before between after : list ParserCallback) (first second : ParserCallback)
    (r0 : FormatReader) :
  reportsOutcome first = true →
  reportsOutcome second = true →
  generation byteSource (before ++ first :: between ++ second :: after) r0
    = AssertFails.
Proof.
  intros [x1 Hfirst]%outcomeReport_is_Some [x2 Hsecond]%outcomeReport_is_Some.
  destruct (generation _ _ _) as [r| |] eqn:Hgen; [|done|].
  - exfalso. apply generation_invariant in Hgen as [_ Hinv].
    assert (2 ≤ length (omap outcomeReport
                          (before ++ first :: between ++ second :: after))) as Hlen.
    { rewrite omap_app, length_app. simpl. rewrite Hfirst. simpl.
      rewrite omap_app, length_app. simpl. rewrite Hsecond. simpl. lia. }
    destruct (m_parseTracksStatus r).
    + destruct Hinv as (a & segment & errorCode & Hone & _).
      rewrite Hone in Hlen. simpl in Hlen. lia.
    + destruct Hinv as (Hnone & _). rewrite Hnone in Hlen. simpl in Hlen. lia.
  - exfalso. unfold generation in Hgen. rewrite parseByteSource_started in Hgen.
    by apply deliverAll_never_waits in Hgen.
Qed.

Lemma second_report_fails_assertion_witness :
  reportsOutcome (DidParseInitializationData [] scenarioSegment) = true ∧
  reportsOutcome (DidEncounterErrorDuringParsing 5%N) = true ∧
  generation 7%N ([] ++ DidParseInitializationData [] scenarioSegment
                    :: [DidProvideMediaData 100%N 1%N]
                    ++ DidEncounterErrorDuringParsing 5%N :: [AppendDataReturned])
             create = AssertFails.
Proof.
  split_and!; [reflexivity|reflexivity|].
  exact (second_report_fails_assertion 7%N [] [DidProvideMediaData 100%N 1%N]
           [AppendDataReturned] (DidParseInitializationData [] scenarioSegment)
           (DidEncounterErrorDuringParsing 5%N) create eq_refl eq_refl).
Defined.
